(** * Community Problem Solver API: a shallow embedding of the request handlers

    The service keeps two module-level variables, [problems] (an array of
    problem records) and [nextId] (a counter), and every route handler is a
    synchronous function of the request and of these two variables.  The
    handlers are embedded as functions [State -> Response * State].

    Modelling conventions.
    - JavaScript numbers that the handlers compute with ([id], [nextId],
      [upvotes], the result of [parseInt]) are mathematical integers; this is
      exact for magnitudes up to 2^53.  [NaN] is [None].
    - Every evaluation of [new Date().toISOString()] is an input of the
      request: the handler receives one [timestamp] per evaluation, in
      evaluation order.  A timestamp is the instant (in milliseconds) that the
      ISO-8601 string denotes.
    - Strings are sequences of 8-bit code units.
    - [req.body] and [req.query] are objects whose fields are arbitrary JSON
      values; a field that is not there reads as [JUndefined]. *)

From Stdlib Require Import ZArith String Ascii List Lia Sorted.
From Stdlib Require Import DecimalString DecimalN.
From stdpp Require Import base numbers strings list.
Import ListNotations.

Local Open Scope string_scope.
Local Open Scope list_scope.
Local Open Scope Z_scope.

(** ** JavaScript values

    A JSON number is represented by an integer: the handlers only test such
    a value for being zero and compare it with strings.  An object or array
    is represented by its reference. *)

Inductive jsval : Type :=
| JUndefined
| JNull
| JBool (b : bool)
| JNum (z : Z)
| JStr (s : string)
| JObject (ref : nat).

(** [ToBoolean]: what [if (v)], [!v] and [v && e] test. *)
Definition truthy (v : jsval) : bool :=
  match v with
  | JUndefined | JNull => false
  | JBool b => b
  | JNum z => negb (z =? 0)
  | JStr s => negb (String.eqb s "")
  | JObject _ => true
  end.

(** [a === b]; objects and arrays compare by reference. *)
Definition strict_eq (a b : jsval) : bool :=
  match a, b with
  | JUndefined, JUndefined => true
  | JNull, JNull => true
  | JBool x, JBool y => Bool.eqb x y
  | JNum x, JNum y => x =? y
  | JStr x, JStr y => String.eqb x y
  | JObject r, JObject r' => Nat.eqb r r'
  | _, _ => false
  end.

(** [arr.includes(v)] *)
Definition includes (arr : list jsval) (v : jsval) : bool :=
  existsb (fun x => strict_eq x v) arr.

(** ** parseInt (radix argument omitted) *)

Definition is_white_space (c : ascii) : bool :=
  let n := nat_of_ascii c in
  (Nat.eqb n 9 || Nat.eqb n 10 || Nat.eqb n 11 || Nat.eqb n 12
   || Nat.eqb n 13 || Nat.eqb n 32 || Nat.eqb n 160)%bool.

Fixpoint trim_start (s : string) : string :=
  match s with
  | String c r => if is_white_space c then trim_start r else s
  | EmptyString => s
  end.

(** Value of a character as a digit, in the largest radix (36). *)
Definition digit_value (c : ascii) : option Z :=
  let n := Z.of_nat (nat_of_ascii c) in
  if (48 <=? n) && (n <=? 57) then Some (n - 48)
  else if (97 <=? n) && (n <=? 122) then Some (n - 87)
  else if (65 <=? n) && (n <=? 90) then Some (n - 55)
  else None.

Definition radix_digit (R : Z) (c : ascii) : option Z :=
  match digit_value c with
  | Some d => if d <? R then Some d else None
  | None => None
  end.

(** Value of the longest prefix of radix-[R] digits; [acc] is the value read
    so far, [None] while no digit has been read. *)
Fixpoint parse_digits (R : Z) (s : string) (acc : option Z) : option Z :=
  match s with
  | String c r =>
      match radix_digit R c with
      | Some d =>
          parse_digits R r (Some (match acc with Some a => a * R + d | None => d end))
      | None => acc
      end
  | EmptyString => acc
  end.

Definition strip_sign (s : string) : Z * string :=
  match s with
  | String "-" r => (-1, r)
  | String "+" r => (1, r)
  | _ => (1, s)
  end.

Definition strip_hex_prefix (s : string) : Z * string :=
  match s with
  | String "0" (String "x" r) => (16, r)
  | String "0" (String "X" r) => (16, r)
  | _ => (10, s)
  end.

Definition parseInt (s : string) : option Z :=
  let '(sign, s1) := strip_sign (trim_start s) in
  let '(R, s2) := strip_hex_prefix s1 in
  match parse_digits R s2 None with
  | Some n => Some (sign * n)
  | None => None
  end.

(** ** Records and state *)

Definition timestamp : Type := Z.

Record Problem : Type := mkProblem {
  id : Z;
  title : jsval;
  description : jsval;
  category : jsval;
  location : jsval;
  upvotes : Z;
  status : jsval;
  createdAt : timestamp;
  updatedAt : timestamp
}.

Record State : Type := mkState {
  problems : list Problem;
  nextId : Z
}.

(** [let problems = []; let nextId = 1;] *)
Definition init : State := {| problems := []; nextId := 1 |}.

(** ** Requests and responses *)

Record Query : Type := mkQuery {
  q_status : jsval;
  q_category : jsval
}.

Record Body : Type := mkBody {
  b_title : jsval;
  b_description : jsval;
  b_category : jsval;
  b_location : jsval;
  b_status : jsval
}.

Record Categories : Type := mkCategories {
  infrastructure : nat;
  safety : nat;
  environment : nat;
  education : nat;
  health : nat
}.

Record Stats : Type := mkStats {
  total : nat;
  open : nat;
  inProgress : nat;
  resolved : nat;
  categories : Categories;
  topUpvoted : list Problem
}.

Inductive Response : Type :=
| NotFound                                  (* 404, 'Problem not found' *)
| InvalidInput (message : string)           (* 400 *)
| ListOk (count : nat) (data : list Problem) (* 200 *)
| ProblemOk (code : nat) (message : option string) (data : Problem)
| StatsOk (data : Stats).                   (* 200 *)

Inductive Request : Type :=
| GetProblems (query : Query)
| GetProblem (idp : string)
| PostProblem (body : Body) (now1 now2 : timestamp)
| PutProblem (idp : string) (body : Body) (now : timestamp)
| PostUpvote (idp : string) (now : timestamp)
| PatchStatus (idp : string) (body : Body) (now : timestamp)
| DeleteProblem (idp : string)
| GetStats.

(** ** Array helpers *)

(** [arr.findIndex(f)], with [None] for -1. *)
Fixpoint findIndex {A : Type} (f : A -> bool) (l : list A) : option nat :=
  match l with
  | [] => None
  | x :: r => if f x then Some 0%nat else option_map S (findIndex f r)
  end.

(** [arr.sort(cmp)]: the sort is stable (ECMAScript 2019); an element moves
    behind a later one only when [cmp] of the two is positive. *)
Fixpoint sort_insert {A : Type} (cmp : A -> A -> Z) (x : A) (l : list A) : list A :=
  match l with
  | [] => [x]
  | y :: r => if 0 <? cmp x y then y :: sort_insert cmp x r else x :: y :: r
  end.

Fixpoint js_sort {A : Type} (cmp : A -> A -> Z) (l : list A) : list A :=
  match l with
  | [] => []
  | x :: r => sort_insert cmp x (js_sort cmp r)
  end.

(** [p => p.id === parseInt(req.params.id)] *)
Definition id_matches (idp : string) (p : Problem) : bool :=
  match parseInt idp with
  | Some n => id p =? n
  | None => false
  end.

(** ** Handlers *)

(** GET /problems *)
Definition get_problems (query : Query) (st : State) : Response * State :=
  let filteredProblems := problems st in
  let filteredProblems :=
    if truthy (q_status query)
    then List.filter (fun p => strict_eq (status p) (q_status query)) filteredProblems
    else filteredProblems in
  let filteredProblems :=
    if truthy (q_category query)
    then List.filter (fun p => strict_eq (category p) (q_category query)) filteredProblems
    else filteredProblems in
  (ListOk (length filteredProblems) filteredProblems, st).

(** GET /problems/:id *)
Definition get_problem (idp : string) (st : State) : Response * State :=
  match List.find (id_matches idp) (problems st) with
  | None => (NotFound, st)
  | Some problem => (ProblemOk 200 None problem, st)
  end.

(** POST /problems *)
Definition post_problem (body : Body) (now1 now2 : timestamp) (st : State)
  : Response * State :=
  if negb (truthy (b_title body)) || negb (truthy (b_description body))
     || negb (truthy (b_category body)) || negb (truthy (b_location body))
  then (InvalidInput "Please provide all required fields", st)
  else
    let newProblem :=
      {| id := nextId st;
         title := b_title body;
         description := b_description body;
         category := b_category body;
         location := b_location body;
         upvotes := 0;
         status := JStr "open";
         createdAt := now1;
         updatedAt := now2 |} in
    (ProblemOk 201 (Some "Problem reported successfully") newProblem,
     {| problems := problems st ++ [newProblem]; nextId := nextId st + 1 |}).

(** [...(v && { v })]: the field is overwritten only by a truthy value. *)
Definition spread_if (v old : jsval) : jsval := if truthy v then v else old.

(** PUT /problems/:id.  The handlers below index the array with the result of
    [findIndex], which is always in range ([findIndex_Some]); the inner
    [None] branch of the lookup is therefore never taken. *)
Definition put_problem (idp : string) (body : Body) (now : timestamp) (st : State)
  : Response * State :=
  match findIndex (id_matches idp) (problems st) with
  | None => (NotFound, st)
  | Some problemIndex =>
      match problems st !! problemIndex with
      | None => (NotFound, st)
      | Some old =>
          let updated :=
            {| id := id old;
               title := spread_if (b_title body) (title old);
               description := spread_if (b_description body) (description old);
               category := spread_if (b_category body) (category old);
               location := spread_if (b_location body) (location old);
               upvotes := upvotes old;
               status := spread_if (b_status body) (status old);
               createdAt := createdAt old;
               updatedAt := now |} in
          (ProblemOk 200 (Some "Problem updated successfully") updated,
           {| problems := <[problemIndex := updated]> (problems st);
              nextId := nextId st |})
      end
  end.

(** POST /problems/:id/upvote *)
Definition post_upvote (idp : string) (now : timestamp) (st : State)
  : Response * State :=
  match findIndex (id_matches idp) (problems st) with
  | None => (NotFound, st)
  | Some problemIndex =>
      match problems st !! problemIndex with
      | None => (NotFound, st)
      | Some old =>
          let updated :=
            {| id := id old; title := title old; description := description old;
               category := category old; location := location old;
               upvotes := upvotes old + 1;
               status := status old;
               createdAt := createdAt old;
               updatedAt := now |} in
          (ProblemOk 200 (Some "Upvote recorded") updated,
           {| problems := <[problemIndex := updated]> (problems st);
              nextId := nextId st |})
      end
  end.

Definition valid_statuses : list jsval :=
  [JStr "open"; JStr "in-progress"; JStr "resolved"].

(** PATCH /problems/:id/status *)
Definition patch_status (idp : string) (body : Body) (now : timestamp) (st : State)
  : Response * State :=
  match findIndex (id_matches idp) (problems st) with
  | None => (NotFound, st)
  | Some problemIndex =>
      if negb (includes valid_statuses (b_status body))
      then (InvalidInput "Invalid status. Must be: open, in-progress, or resolved", st)
      else
        match problems st !! problemIndex with
        | None => (NotFound, st)
        | Some old =>
            let updated :=
              {| id := id old; title := title old; description := description old;
                 category := category old; location := location old;
                 upvotes := upvotes old;
                 status := b_status body;
                 createdAt := createdAt old;
                 updatedAt := now |} in
            (ProblemOk 200 (Some "Status updated successfully") updated,
             {| problems := <[problemIndex := updated]> (problems st);
                nextId := nextId st |})
        end
  end.

(** DELETE /problems/:id; [splice(problemIndex, 1)[0]] is the removed record. *)
Definition delete_problem (idp : string) (st : State) : Response * State :=
  match findIndex (id_matches idp) (problems st) with
  | None => (NotFound, st)
  | Some problemIndex =>
      match problems st !! problemIndex with
      | None => (NotFound, st)
      | Some deletedProblem =>
          (ProblemOk 200 (Some "Problem deleted successfully") deletedProblem,
           {| problems := delete problemIndex (problems st); nextId := nextId st |})
      end
  end.

Definition count_where (f : Problem -> bool) (l : list Problem) : nat :=
  length (List.filter f l).

(** GET /stats.  The counts are taken first; [problems.sort] then reorders
    the stored array itself, and [slice(0, 5)] copies its first five. *)
Definition get_stats (st : State) : Response * State :=
  let ps := problems st in
  let sorted := js_sort (fun a b => upvotes b - upvotes a) ps in
  (StatsOk
     {| total := length ps;
        open := count_where (fun p => strict_eq (status p) (JStr "open")) ps;
        inProgress := count_where (fun p => strict_eq (status p) (JStr "in-progress")) ps;
        resolved := count_where (fun p => strict_eq (status p) (JStr "resolved")) ps;
        categories :=
          {| infrastructure := count_where (fun p => strict_eq (category p) (JStr "infrastructure")) ps;
             safety := count_where (fun p => strict_eq (category p) (JStr "safety")) ps;
             environment := count_where (fun p => strict_eq (category p) (JStr "environment")) ps;
             education := count_where (fun p => strict_eq (category p) (JStr "education")) ps;
             health := count_where (fun p => strict_eq (category p) (JStr "health")) ps |};
        topUpvoted := take 5 sorted |},
   {| problems := sorted; nextId := nextId st |}).

Definition handle (req : Request) (st : State) : Response * State :=
  match req with
  | GetProblems query => get_problems query st
  | GetProblem idp => get_problem idp st
  | PostProblem body now1 now2 => post_problem body now1 now2 st
  | PutProblem idp body now => put_problem idp body now st
  | PostUpvote idp now => post_upvote idp now st
  | PatchStatus idp body now => patch_status idp body now st
  | DeleteProblem idp => delete_problem idp st
  | GetStats => get_stats st
  end.

(** The server processes requests one after the other. *)
Fixpoint serve (reqs : list Request) (st : State) : list Response * State :=
  match reqs with
  | [] => ([], st)
  | req :: rest =>
      let '(resp, st1) := handle req st in
      let '(resps, st2) := serve rest st1 in
      (resp :: resps, st2)
  end.

Definition reachable (st : State) : Prop :=
  exists reqs, snd (serve reqs init) = st.


(** ** Vocabulary of the specification *)

Global Instance jsval_eq_dec : EqDecision jsval.
Proof. solve_decision. Defined.

(** A field that is missing from the request, or is the empty string. *)
Definition missing_or_empty (v : jsval) : Prop :=
  v = JUndefined \/ v = JStr "".

(** The falsy JSON values: missing, [null], [false], [0] and the empty string. *)
Definition falsy (v : jsval) : Prop :=
  v = JUndefined \/ v = JNull \/ v = JBool false \/ v = JNum 0 \/ v = JStr "".

(** One of the three recognized status values. *)
Definition recognized_status (v : jsval) : Prop :=
  v = JStr "open" \/ v = JStr "in-progress" \/ v = JStr "resolved".

(** The outcomes that the specification calls failures. *)
Definition is_failure (r : Response) : Prop :=
  match r with
  | NotFound | InvalidInput _ => True
  | _ => False
  end.

(** The five requests that address a record through the path segment [idp]. *)
Definition id_addressed (idp : string) (body : Body) (now : timestamp) : list Request :=
  [GetProblem idp; PutProblem idp body now; PostUpvote idp now;
   PatchStatus idp body now; DeleteProblem idp].

(** The id that a successful Create assigned, read off its 201 response. *)
Definition created_id (req : Request) (resp : Response) : list Z :=
  match req, resp with
  | PostProblem _ _ _, ProblemOk _ _ p => [id p]
  | _, _ => []
  end.

Fixpoint created_ids (reqs : list Request) (resps : list Response) : list Z :=
  match reqs, resps with
  | req :: reqs', resp :: resps' => created_id req resp ++ created_ids reqs' resps'
  | _, _ => []
  end.

(** A path segment "whose leading characters form a decimal integer": the
    digits it starts with, and the number they write. *)
Definition decimal_digit (c : ascii) : option Z :=
  let code := Z.of_nat (nat_of_ascii c) in
  if (code <? 48) || (57 <? code) then None else Some (code - 48).

Fixpoint leading_digits (s : string) : list Z :=
  match s with
  | String c r =>
      match decimal_digit c with
      | Some d => d :: leading_digits r
      | None => []
      end
  | EmptyString => []
  end.

Definition decimal_value (ds : list Z) : Z :=
  fold_left (fun a d => 10 * a + d) ds 0.

Definition leading_decimal (s : string) : option Z :=
  match leading_digits s with
  | [] => None
  | ds => Some (decimal_value ds)
  end.

(** The segment starts with the hexadecimal marker. *)
Definition hex_prefixed (s : string) : bool :=
  match s with
  | String c (String c' _) => Ascii.eqb c "0" && (Ascii.eqb c' "x" || Ascii.eqb c' "X")
  | _ => false
  end.

(** Non-increasing order of upvotes. *)
Definition upvotes_desc (a b : Problem) : Prop := upvotes b <= upvotes a.

(** Ids are pairwise distinct and all below the counter. *)
Definition ids_fresh (st : State) : Prop :=
  NoDup (map id (problems st)) /\ Forall (fun p => id p < nextId st) (problems st).

Global Instance falsy_dec (v : jsval) : Decision (falsy v).
Proof. unfold falsy. apply _. Defined.

(** Every stored status is one of the three recognized values. *)
Definition statuses_recognized (st : State) : Prop :=
  Forall (fun p => recognized_status (status p)) (problems st).

(** An Update request is harmless for the status invariant when it supplies
    no status, or a recognized one. *)
Definition put_status_ok (req : Request) : Prop :=
  match req with
  | PutProblem _ body _ => falsy (b_status body) \/ recognized_status (b_status body)
  | _ => True
  end.

(** What a List request selects: every supplied (truthy) filter must be
    matched exactly. *)
Definition selected (query : Query) (p : Problem) : Prop :=
  (~ falsy (q_status query) -> status p = q_status query) /\
  (~ falsy (q_category query) -> category p = q_category query).

Global Instance selected_dec (query : Query) (p : Problem) : Decision (selected query p).
Proof. unfold selected. apply _. Defined.

Definition categories_sum (c : Categories) : nat :=
  (infrastructure c + safety c + environment c + education c + health c)%nat.

(** The response is a record, and that record has id [n]. *)
Definition answers_for (n : Z) (resp : Response) : Prop :=
  match resp with
  | ProblemOk _ _ p => id p = n
  | _ => False
  end.

(** Sample requests. *)
Definition pothole : Body :=
  {| b_title := JStr "Pothole"; b_description := JStr "Large pothole";
     b_category := JStr "infrastructure"; b_location := JStr "Main St";
     b_status := JUndefined |}.

Definition only_status (v : jsval) : Body :=
  {| b_title := JUndefined; b_description := JUndefined; b_category := JUndefined;
     b_location := JUndefined; b_status := v |}.

Definition empty_body : Body := only_status JUndefined.

(** The registry after one report, filed at instant 5. *)
Definition one_report : State := (serve [PostProblem pothole 5 5] init).2.

(** The registry after sixteen reports. *)
Definition sixteen_reports : State :=
  (serve (repeat (PostProblem pothole 0 0) 16) init).2.

(** ** The health handler, and vocabulary for the properties of the handlers *)

Record Health : Type := mkHealth {
  h_message : string;
  h_timestamp : timestamp;
  problemsCount : nat
}.

(** GET /health *)
Definition get_health (now : timestamp) (st : State) : Health * State :=
  ({| h_message := "Server is running";
      h_timestamp := now;
      problemsCount := length (problems st) |}, st).

Definition no_filter : Query := {| q_status := JUndefined; q_category := JUndefined |}.

(** The id that a successful Delete removed, read off its response. *)
Definition deleted_id (req : Request) (resp : Response) : list Z :=
  match req, resp with
  | DeleteProblem _, ProblemOk _ _ p => [id p]
  | _, _ => []
  end.

Fixpoint deleted_ids (reqs : list Request) (resps : list Response) : list Z :=
  match reqs, resps with
  | req :: reqs', resp :: resps' => deleted_id req resp ++ deleted_ids reqs' resps'
  | _, _ => []
  end.

(** The clock readings that a request carries, in evaluation order. *)
Definition readings (req : Request) : list timestamp :=
  match req with
  | PostProblem _ now1 now2 => [now1; now2]
  | PutProblem _ _ now => [now]
  | PostUpvote _ now => [now]
  | PatchStatus _ _ now => [now]
  | _ => []
  end.

(** The value of a field after an Update that carries [v] for it. *)
Definition applied (v old : jsval) : jsval := if decide (falsy v) then old else v.

(** None of the five content fields is falsy. *)
Definition fields_present (p : Problem) : Prop :=
  ~ falsy (title p) /\ ~ falsy (description p) /\ ~ falsy (category p) /\
  ~ falsy (location p) /\ ~ falsy (status p).

(** createdAt is not later than updatedAt, which is not later than [T]. *)
Definition timely (T : timestamp) (st : State) : Prop :=
  Forall (fun p => createdAt p <= updatedAt p /\ updatedAt p <= T) (problems st).

(** Neither a Create nor a Delete. *)
Definition keeps_records (req : Request) : Prop :=
  match req with
  | PostProblem _ _ _ | DeleteProblem _ => False
  | _ => True
  end.

(** The record that [one_report] holds. *)
Definition reported : Problem :=
  mkProblem 1 (JStr "Pothole") (JStr "Large pothole") (JStr "infrastructure")
            (JStr "Main St") 0 (JStr "open") 5 5.

(** A stored record is well formed: no content field is falsy, upvotes is
    not negative and the id is positive. *)
Definition record_ok (p : Problem) : Prop :=
  fields_present p /\ 0 <= upvotes p /\ 1 <= id p.

Definition records_ok (st : State) : Prop :=
  Forall record_ok (problems st) /\ 1 <= nextId st.

(** The decimal numeral of a non-negative integer, as a JSON response prints
    an id ([res.json]) and as a client puts it back into a path. *)
Definition numeral (n : Z) : string :=
  NilEmpty.string_of_uint (N.to_uint (Z.to_N n)).

(** ** Basic facts about values and arrays *)

Example parseInt_5abc : parseInt "5abc" = Some 5.
Proof. reflexivity. Qed.

Example parseInt_hex : parseInt "0x10" = Some 16.
Proof. reflexivity. Qed.

Example parseInt_nan : parseInt "abc" = None.
Proof. reflexivity. Qed.

Lemma strict_eq_true (a b : jsval) : strict_eq a b = true <-> a = b.
Proof.
  destruct a, b; simpl; split; intros H; try discriminate; try reflexivity;
    try (inversion H; subst).
  - apply Bool.eqb_prop in H. congruence.
  - apply Bool.eqb_reflx.
  - apply Z.eqb_eq in H. congruence.
  - apply Z.eqb_refl.
  - apply String.eqb_eq in H. congruence.
  - apply String.eqb_refl.
  - apply Nat.eqb_eq in H. congruence.
  - apply Nat.eqb_refl.
Qed.

Lemma truthy_false (v : jsval) : truthy v = false <-> falsy v.
Proof.
  unfold falsy. destruct v as [ | | [] | z | s | r]; simpl; split; intros H;
    try discriminate; try reflexivity; try tauto;
    try (destruct H as [H|[H|[H|[H|H]]]]; discriminate).
  - apply Bool.negb_false_iff, Z.eqb_eq in H. subst. tauto.
  - destruct H as [H|[H|[H|[H|H]]]]; try discriminate. inversion H. reflexivity.
  - apply Bool.negb_false_iff, String.eqb_eq in H. subst. tauto.
  - destruct H as [H|[H|[H|[H|H]]]]; try discriminate. inversion H. reflexivity.
Qed.

Lemma truthy_true (v : jsval) : truthy v = true <-> ~ falsy v.
Proof.
  rewrite <- truthy_false. destruct (truthy v); split; intros; congruence.
Qed.

Lemma includes_valid_statuses (v : jsval) :
  includes valid_statuses v = true <-> recognized_status v.
Proof.
  unfold includes, valid_statuses, recognized_status. cbn [existsb].
  rewrite !Bool.orb_true_iff, !strict_eq_true.
  split; intros H.
  - destruct H as [H|[H|[H|H]]]; try discriminate; auto.
  - destruct H as [H|[H|H]]; auto.
Qed.

Section FindIndex.
Context {A : Type} (f : A -> bool).

Lemma findIndex_Some (l : list A) (i : nat) :
  findIndex f l = Some i ->
  exists x, l !! i = Some x /\ f x = true /\
            forall j y, (j < i)%nat -> l !! j = Some y -> f y = false.
Proof.
  revert i. induction l as [|a l IH]; intros i H; simpl in H; [discriminate|].
  destruct (f a) eqn:Ea.
  - inversion H; subst. exists a. repeat split; auto. intros j y Hj. lia.
  - destruct (findIndex f l) as [k|]; simpl in H; [|discriminate].
    inversion H; subst. destruct (IH k eq_refl) as (x & Hx & Hfx & Hlt).
    exists x. repeat split; auto.
    intros [|j] y Hj Hy; simpl in Hy.
    + congruence.
    + apply (Hlt j); auto. lia.
Qed.

Lemma findIndex_None (l : list A) :
  findIndex f l = None <-> forall x, In x l -> f x = false.
Proof.
  induction l as [|a l IH]; simpl.
  - split; auto. intros _ x [].
  - destruct (f a) eqn:Ea.
    + split; [discriminate|]. intros H. specialize (H a (or_introl eq_refl)). congruence.
    + destruct (findIndex f l) as [k|]; simpl.
      * split; [discriminate|]. intros H.
        assert (Hk : Some k = None) by (apply IH; auto). discriminate.
      * split; auto. intros _ x [<-|Hx]; auto. apply IH; auto.
Qed.

Lemma find_findIndex (l : list A) :
  List.find f l = match findIndex f l with Some i => l !! i | None => None end.
Proof.
  induction l as [|a l IH]; simpl; auto.
  destruct (f a); auto. rewrite IH. destruct (findIndex f l); reflexivity.
Qed.

Lemma findIndex_ext (g : A -> bool) (l : list A) :
  (forall x, f x = g x) -> findIndex f l = findIndex g l.
Proof.
  intros E. induction l as [|a l IH]; simpl; auto. rewrite E, IH. reflexivity.
Qed.
End FindIndex.

(** ** The sort *)

Section Sort.
Context {A : Type} (cmp : A -> A -> Z).

Lemma sort_insert_perm (x : A) (l : list A) : Permutation (sort_insert cmp x l) (x :: l).
Proof.
  induction l as [|y r IH]; simpl; [reflexivity|].
  destruct (0 <? cmp x y); [|reflexivity].
  rewrite IH. apply perm_swap.
Qed.

Lemma js_sort_perm (l : list A) : Permutation (js_sort cmp l) l.
Proof.
  induction l as [|x r IH]; simpl; [reflexivity|].
  rewrite sort_insert_perm. now constructor.
Qed.

Lemma js_sort_length (l : list A) : length (js_sort cmp l) = length l.
Proof. apply Permutation_length, js_sort_perm. Qed.
End Sort.

Lemma sort_insert_upvotes_desc (x : Problem) (l : list Problem) :
  StronglySorted upvotes_desc l ->
  StronglySorted upvotes_desc (sort_insert (fun a b => upvotes b - upvotes a) x l).
Proof.
  induction 1 as [|y r Hr IH Hy]; simpl.
  - repeat constructor.
  - destruct (0 <? upvotes y - upvotes x) eqn:E.
    + apply Z.ltb_lt in E. constructor; [exact IH|].
      rewrite sort_insert_perm. constructor; [unfold upvotes_desc; lia | exact Hy].
    + apply Z.ltb_ge in E. constructor; [constructor; assumption|].
      constructor; [unfold upvotes_desc; lia|].
      eapply Forall_impl; [exact Hy|]. unfold upvotes_desc. intros z Hz. simpl in Hz. lia.
Qed.

Lemma js_sort_upvotes_desc (l : list Problem) :
  StronglySorted upvotes_desc (js_sort (fun a b => upvotes b - upvotes a) l).
Proof.
  induction l as [|x r IH]; simpl; [constructor|].
  now apply sort_insert_upvotes_desc.
Qed.

(** ** The id invariant *)

Lemma map_id_insert (l : list Problem) (i : nat) (old new : Problem) :
  l !! i = Some old -> id new = id old -> map id (<[i := new]> l) = map id l.
Proof.
  intros Hi Hid. change (map id) with (fmap (M := list) id).
  rewrite list_fmap_insert, Hid. apply list_insert_id.
  rewrite list_lookup_fmap, Hi. reflexivity.
Qed.

Lemma ids_fresh_insert (st : State) (i : nat) (old new : Problem) :
  problems st !! i = Some old -> id new = id old -> ids_fresh st ->
  ids_fresh {| problems := <[i := new]> (problems st); nextId := nextId st |}.
Proof.
  intros Hi Hid [Hnd Hlt]. split; simpl.
  - now rewrite (map_id_insert _ _ old).
  - apply Forall_insert; [exact Hlt|]. rewrite Hid.
    rewrite Forall_forall in Hlt. apply Hlt. eapply list_elem_of_lookup_2; eauto.
Qed.

Lemma ids_fresh_delete (st : State) (i : nat) :
  ids_fresh st ->
  ids_fresh {| problems := delete i (problems st); nextId := nextId st |}.
Proof.
  intros [Hnd Hlt]. split; simpl.
  - apply (sublist_NoDup _ (map id (problems st))); [exact Hnd|].
    change (map id) with (fmap (M := list) id). apply fmap_sublist, sublist_delete.
  - now apply Forall_delete.
Qed.

Lemma ids_fresh_handle (req : Request) (st : State) :
  ids_fresh st ->
  ids_fresh (handle req st).2 /\ nextId st <= nextId (handle req st).2.
Proof.
  intros Hf. destruct req as [q|idp|b t1 t2|idp b t|idp t|idp b t|idp|]; simpl.
  - split; [exact Hf|lia].
  - unfold get_problem. destruct (List.find _ _); simpl; split; auto; lia.
  - unfold post_problem. destruct (_ || _); simpl; [simpl; split; auto; lia|].
    split; [|lia]. destruct Hf as [Hnd Hlt]. split; simpl.
    + rewrite map_app. simpl. apply NoDup_app. split; [exact Hnd|]. split.
      * intros n Hn Hn'. apply list_elem_of_In in Hn. apply in_map_iff in Hn.
        destruct Hn as (p & <- & Hp). rewrite Forall_forall in Hlt.
        apply list_elem_of_In in Hp. specialize (Hlt p Hp).
        apply list_elem_of_singleton in Hn'. lia.
      * apply NoDup_singleton.
    + apply Forall_app. split.
      * eapply Forall_impl; [exact Hlt|]. intros p Hp. simpl in Hp. lia.
      * repeat constructor. simpl. lia.
  - unfold put_problem. destruct (findIndex _ _) as [i|]; [|simpl; split; auto; lia].
    destruct (problems st !! i) as [old|] eqn:Hi; [|simpl; split; auto; lia].
    simpl. split; [|lia]. now apply (ids_fresh_insert st i old).
  - unfold post_upvote. destruct (findIndex _ _) as [i|]; [|simpl; split; auto; lia].
    destruct (problems st !! i) as [old|] eqn:Hi; [|simpl; split; auto; lia].
    simpl. split; [|lia]. now apply (ids_fresh_insert st i old).
  - unfold patch_status. destruct (findIndex _ _) as [i|]; [|simpl; split; auto; lia].
    destruct (negb _); [simpl; split; auto; lia|].
    destruct (problems st !! i) as [old|] eqn:Hi; [|simpl; split; auto; lia].
    simpl. split; [|lia]. now apply (ids_fresh_insert st i old).
  - unfold delete_problem. destruct (findIndex _ _) as [i|]; [|simpl; split; auto; lia].
    destruct (problems st !! i) as [old|] eqn:Hi; [|simpl; split; auto; lia].
    simpl. split; [|lia]. now apply ids_fresh_delete.
  - split; [|lia]. destruct Hf as [Hnd Hlt]. split; simpl.
    + now rewrite js_sort_perm.
    + now rewrite js_sort_perm.
Qed.

Lemma ids_fresh_init : ids_fresh init.
Proof. split; simpl; constructor. Qed.

Lemma ids_fresh_serve (reqs : list Request) (st : State) :
  ids_fresh st -> ids_fresh (serve reqs st).2 /\ nextId st <= nextId (serve reqs st).2.
Proof.
  revert st. induction reqs as [|req rest IH]; intros st Hf; simpl.
  - split; [exact Hf|lia].
  - destruct (handle req st) as [resp st1] eqn:E1.
    destruct (ids_fresh_handle req st Hf) as [Hf1 Hle1]. rewrite E1 in Hf1, Hle1. simpl in *.
    destruct (IH st1 Hf1) as [Hf2 Hle2].
    destruct (serve rest st1) as [resps st2]. simpl in *. split; [exact Hf2|lia].
Qed.

Lemma reachable_ids_fresh (st : State) : reachable st -> ids_fresh st.
Proof.
  intros [reqs <-]. apply ids_fresh_serve, ids_fresh_init.
Qed.

(** ** Addressing a record by the path segment *)

Lemma id_matches_true (idp : string) (p : Problem) :
  id_matches idp p = true <-> parseInt idp = Some (id p).
Proof.
  unfold id_matches. destruct (parseInt idp) as [n|].
  - rewrite Z.eqb_eq. split; intros H; congruence.
  - split; discriminate.
Qed.

Lemma id_absent_findIndex (idp : string) (l : list Problem) :
  (forall p, In p l -> parseInt idp <> Some (id p)) ->
  findIndex (id_matches idp) l = None.
Proof.
  intros H. apply findIndex_None. intros p Hp.
  destruct (id_matches idp p) eqn:E; [|reflexivity].
  apply id_matches_true in E. now apply H in Hp.
Qed.

Lemma id_present_findIndex (idp : string) (l : list Problem) (p : Problem) :
  In p l -> parseInt idp = Some (id p) ->
  exists i q, findIndex (id_matches idp) l = Some i /\ l !! i = Some q /\ id q = id p.
Proof.
  intros Hp Hid. destruct (findIndex (id_matches idp) l) as [i|] eqn:E.
  - destruct (findIndex_Some _ _ _ E) as (q & Hq & Hm & _).
    exists i, q. repeat split; auto. apply id_matches_true in Hm. congruence.
  - rewrite findIndex_None in E. apply E in Hp.
    apply id_matches_true in Hid. congruence.
Qed.

Lemma id_absent_all_not_found (idp : string) (body : Body) (now : timestamp) (st : State) :
  findIndex (id_matches idp) (problems st) = None ->
  Forall (fun req => handle req st = (NotFound, st)) (id_addressed idp body now).
Proof.
  intros E. unfold id_addressed.
  repeat constructor; simpl;
    unfold get_problem, put_problem, post_upvote, patch_status, delete_problem;
    rewrite ?find_findIndex, E; reflexivity.
Qed.

Lemma failure_no_mutation (req : Request) (st : State) :
  is_failure (handle req st).1 -> (handle req st).2 = st.
Proof.
  destruct req as [q|idp|b t1 t2|idp b t|idp t|idp b t|idp|]; simpl.
  - intros [].
  - unfold get_problem. destruct (List.find _ _); reflexivity.
  - unfold post_problem. destruct (_ || _); simpl; [reflexivity|intros []].
  - unfold put_problem. destruct (findIndex _ _) as [i|]; [|reflexivity].
    destruct (problems st !! i); simpl; [intros []|reflexivity].
  - unfold post_upvote. destruct (findIndex _ _) as [i|]; [|reflexivity].
    destruct (problems st !! i); simpl; [intros []|reflexivity].
  - unfold patch_status. destruct (findIndex _ _) as [i|]; [|reflexivity].
    destruct (negb _); [reflexivity|].
    destruct (problems st !! i); simpl; [intros []|reflexivity].
  - unfold delete_problem. destruct (findIndex _ _) as [i|]; [|reflexivity].
    destruct (problems st !! i); simpl; [intros []|reflexivity].
  - intros [].
Qed.

(** ** Identifiers *)

Lemma created_id_handle (req : Request) (st : State) :
  created_id req (handle req st).1 = [] \/
  (created_id req (handle req st).1 = [nextId st] /\
   nextId (handle req st).2 = nextId st + 1).
Proof.
  destruct req as [q|idp|b t1 t2|idp b t|idp t|idp b t|idp|];
    try (left; reflexivity).
  simpl. unfold post_problem. destruct (_ || _); simpl; [left|right]; auto.
Qed.

Lemma created_ids_serve (reqs : list Request) (st : State) :
  ids_fresh st ->
  StronglySorted Z.lt (created_ids reqs (serve reqs st).1) /\
  Forall (fun n => nextId st <= n < nextId (serve reqs st).2)
         (created_ids reqs (serve reqs st).1).
Proof.
  revert st. induction reqs as [|req rest IH]; intros st Hf; simpl.
  - split; constructor.
  - pose proof (ids_fresh_handle req st Hf) as [Hf1 Hle1].
    pose proof (created_id_handle req st) as Hc.
    destruct (handle req st) as [resp st1]. simpl in *.
    pose proof (ids_fresh_serve rest st1 Hf1) as [_ Hle2].
    destruct (IH st1 Hf1) as [Hs Hb].
    destruct (serve rest st1) as [resps st2]. simpl in *.
    destruct Hc as [-> | [-> Hn]]; simpl.
    + split; [exact Hs|]. eapply Forall_impl; [exact Hb|]. simpl. intros n Hn. lia.
    + split.
      * constructor; [exact Hs|]. eapply Forall_impl; [exact Hb|]. simpl. intros n Hn'. lia.
      * constructor; [lia|]. eapply Forall_impl; [exact Hb|]. simpl. intros n Hn'. lia.
Qed.

Lemma StronglySorted_lt_NoDup (l : list Z) : StronglySorted Z.lt l -> NoDup l.
Proof.
  induction 1 as [|x l Hl IH Hx]; constructor; [|exact IH].
  intros Hin. rewrite Forall_forall in Hx. specialize (Hx x Hin). lia.
Qed.

(** ** In-place updates and removal *)

Lemma findIndex_insert_same {A : Type} (f : A -> bool) (l : list A) (i : nat) (x : A) :
  findIndex f l = Some i -> f x = true -> findIndex f (<[i := x]> l) = Some i.
Proof.
  revert i. induction l as [|a l IH]; intros i H Hx; simpl in H; [discriminate|].
  destruct (f a) eqn:Ea.
  - inversion H; subst. simpl. now rewrite Hx.
  - destruct (findIndex f l) as [k|] eqn:Ek; simpl in H; [|discriminate].
    inversion H; subst. simpl. rewrite Ea, (IH k eq_refl Hx). reflexivity.
Qed.

Lemma unique_id_lookup (l : list Problem) (i : nat) (p q : Problem) :
  NoDup (map id l) -> In p l -> l !! i = Some q -> id q = id p -> q = p.
Proof.
  intros Hnd Hp Hq Hid. apply list_elem_of_In, list_elem_of_lookup in Hp.
  destruct Hp as [j Hj].
  assert (Hij : i = j).
  { apply (NoDup_lookup (map id l) i j (id p)); [exact Hnd| |].
    - change (map id l) with (id <$> l). rewrite list_lookup_fmap, Hq. simpl. congruence.
    - change (map id l) with (id <$> l). rewrite list_lookup_fmap, Hj. reflexivity. }
  subst j. congruence.
Qed.

Lemma addressed_record (st : State) (idp : string) (p : Problem) :
  reachable st -> In p (problems st) -> parseInt idp = Some (id p) ->
  exists i, findIndex (id_matches idp) (problems st) = Some i /\ problems st !! i = Some p.
Proof.
  intros Hr Hp Hid. destruct (id_present_findIndex idp _ p Hp Hid) as (i & q & Hi & Hq & Hqp).
  exists i. split; [exact Hi|].
  apply reachable_ids_fresh in Hr. destruct Hr as [Hnd _].
  now rewrite <- (unique_id_lookup _ i p q Hnd Hp Hq Hqp).
Qed.

Lemma lookup_split (l : list Problem) (i : nat) (p : Problem) :
  l !! i = Some p ->
  l = take i l ++ p :: drop (S i) l /\ delete i l = take i l ++ drop (S i) l.
Proof.
  intros H. split.
  - symmetry. now apply take_drop_middle.
  - apply delete_take_drop.
Qed.

Lemma deleted_id_absent (l : list Problem) (i : nat) (p : Problem) (idp : string) :
  NoDup (map id l) -> l !! i = Some p -> parseInt idp = Some (id p) ->
  findIndex (id_matches idp) (delete i l) = None.
Proof.
  intros Hnd Hi Hid. apply findIndex_None. intros q Hq.
  destruct (id_matches idp q) eqn:E; [|reflexivity]. exfalso.
  apply id_matches_true in E.
  destruct (lookup_split l i p Hi) as [Hl Hd].
  rewrite Hd in Hq. rewrite Hl, map_app in Hnd. simpl in Hnd.
  apply NoDup_app in Hnd. destruct Hnd as (_ & Hdisj & Hnd2).
  apply NoDup_cons in Hnd2. destruct Hnd2 as [Hnin _].
  assert (Hqp : id q = id p) by congruence.
  apply in_app_or in Hq. destruct Hq as [Hq|Hq].
  - apply (Hdisj (id p)).
    + rewrite <- Hqp. apply list_elem_of_In, in_map, Hq.
    + left.
  - apply Hnin. rewrite <- Hqp. apply list_elem_of_In, in_map, Hq.
Qed.

(** ** parseInt on segments that start with decimal digits *)

Lemma decimal_digit_radix (c : ascii) :
  radix_digit 10 c = decimal_digit c.
Proof. destruct c as [[] [] [] [] [] [] [] []]; reflexivity. Qed.

Lemma decimal_digit_not_space (c : ascii) (d : Z) :
  decimal_digit c = Some d -> is_white_space c = false.
Proof. destruct c as [[] [] [] [] [] [] [] []]; simpl; intros H; try discriminate; reflexivity. Qed.

Lemma decimal_digit_no_sign (c : ascii) (d : Z) (r : string) :
  decimal_digit c = Some d -> strip_sign (String c r) = (1, String c r).
Proof. destruct c as [[] [] [] [] [] [] [] []]; simpl; intros H; try discriminate; reflexivity. Qed.

Lemma no_hex_prefix (s : string) :
  hex_prefixed s = false -> strip_hex_prefix s = (10, s).
Proof.
  destruct s as [|c [|c' r]]; try reflexivity.
  - destruct c as [[] [] [] [] [] [] [] []]; reflexivity.
  - destruct c as [[] [] [] [] [] [] [] []]; try reflexivity.
    destruct c' as [[] [] [] [] [] [] [] []]; try reflexivity; discriminate.
Qed.

Lemma parse_digits_decimal (s : string) (acc : option Z) :
  parse_digits 10 s acc =
  match leading_digits s with
  | [] => acc
  | ds => Some (fold_left (fun a d => 10 * a + d) ds (default 0 acc))
  end.
Proof.
  revert acc. induction s as [|c r IH]; intros acc; [reflexivity|].
  cbn [parse_digits leading_digits]. rewrite decimal_digit_radix.
  destruct (decimal_digit c) as [d|]; [|reflexivity].
  rewrite IH. cbn [fold_left default].
  assert (E : match acc with Some a => a * 10 + d | None => d end = 10 * default 0 acc + d)
    by (destruct acc; simpl; lia).
  rewrite E. destruct (leading_digits r); reflexivity.
Qed.

Lemma parseInt_leading_decimal (s : string) (n : Z) :
  leading_decimal s = Some n -> hex_prefixed s = false -> parseInt s = Some n.
Proof.
  unfold leading_decimal, parseInt. intros Hn Hx.
  destruct s as [|c r]; [discriminate|].
  destruct (decimal_digit c) as [d|] eqn:Ec; [|simpl in Hn; rewrite Ec in Hn; discriminate].
  cbn [trim_start]. rewrite (decimal_digit_not_space c d Ec), (decimal_digit_no_sign c d r Ec).
  rewrite (no_hex_prefix _ Hx), parse_digits_decimal.
  destruct (leading_digits (String c r)) as [|d0 ds]; [discriminate|].
  inversion Hn; subst. unfold decimal_value. cbn [default]. f_equal. lia.
Qed.

(** ** Filters and counts *)

Section Filters.
Context {A : Type}.

Lemma filter_bool_prop (f : A -> bool) (P : A -> Prop) `{!forall x, Decision (P x)}
      (l : list A) :
  (forall x, f x = true <-> P x) -> List.filter f l = filter P l.
Proof.
  intros E. induction l as [|a l IH]; [reflexivity|].
  simpl. rewrite filter_cons, IH. destruct (f a) eqn:Ea.
  - rewrite decide_True; [reflexivity|]. now apply E.
  - rewrite decide_False; [reflexivity|]. intros Ha. apply E in Ha. congruence.
Qed.

Lemma filter_bool_twice (f g : A -> bool) (l : list A) :
  List.filter g (List.filter f l) = List.filter (fun x => f x && g x) l.
Proof.
  induction l as [|a l IH]; [reflexivity|].
  simpl. destruct (f a); simpl; [destruct (g a)|]; now rewrite IH.
Qed.

Lemma filter_bool_all (l : list A) : List.filter (fun _ => true) l = l.
Proof. induction l as [|a l IH]; simpl; congruence. Qed.

Lemma filter_none (P : A -> Prop) `{!forall x, Decision (P x)} (l : list A) :
  (forall x, In x l -> ~ P x) -> filter P l = [].
Proof.
  induction l as [|a l IH]; intros Hno; [reflexivity|].
  rewrite filter_cons, decide_False.
  - apply IH. intros x Hx. apply Hno. now right.
  - apply Hno. now left.
Qed.
End Filters.

Lemma count_where_prop (f : Problem -> bool) (P : Problem -> Prop)
      `{!forall x, Decision (P x)} (l : list Problem) :
  (forall x, f x = true <-> P x) -> count_where f l = length (filter P l).
Proof. intros E. unfold count_where. now rewrite (filter_bool_prop f P). Qed.

Lemma category_counts_le (l : list Problem) :
  (count_where (fun p => strict_eq (category p) (JStr "infrastructure")) l
   + count_where (fun p => strict_eq (category p) (JStr "safety")) l
   + count_where (fun p => strict_eq (category p) (JStr "environment")) l
   + count_where (fun p => strict_eq (category p) (JStr "education")) l
   + count_where (fun p => strict_eq (category p) (JStr "health")) l
   <= length l)%nat.
Proof.
  unfold count_where. induction l as [|a l IH]; [simpl; lia|].
  cbn [List.filter].
  destruct (strict_eq (category a) (JStr "infrastructure")) eqn:E1;
  destruct (strict_eq (category a) (JStr "safety")) eqn:E2;
  destruct (strict_eq (category a) (JStr "environment")) eqn:E3;
  destruct (strict_eq (category a) (JStr "education")) eqn:E4;
  destruct (strict_eq (category a) (JStr "health")) eqn:E5;
  rewrite ?strict_eq_true in *;
  try (exfalso; congruence);
  cbn [length]; lia.
Qed.

(** ** Recognized statuses *)

Lemma spread_if_falsy (v old : jsval) : falsy v -> spread_if v old = old.
Proof. intros H. unfold spread_if. apply truthy_false in H. now rewrite H. Qed.

Lemma statuses_recognized_handle (req : Request) (st : State) :
  put_status_ok req -> statuses_recognized st -> statuses_recognized (handle req st).2.
Proof.
  unfold statuses_recognized.
  destruct req as [q|idp|b t1 t2|idp b t|idp t|idp b t|idp|]; simpl; intros Hok H.
  - exact H.
  - unfold get_problem. now destruct (List.find _ _).
  - unfold post_problem. destruct (_ || _); simpl; [exact H|].
    apply Forall_app. split; [exact H|]. repeat constructor.
  - unfold put_problem. destruct (findIndex _ _) as [i|]; [|exact H].
    destruct (problems st !! i) as [old|] eqn:Hi; [|exact H]. simpl.
    apply Forall_insert; [exact H|]. simpl.
    destruct Hok as [Hf|Hr].
    + rewrite (spread_if_falsy _ _ Hf). rewrite Forall_forall in H.
      apply H. eapply list_elem_of_lookup_2; eauto.
    + unfold spread_if. destruct (truthy (b_status b)); [exact Hr|].
      rewrite Forall_forall in H. apply H. eapply list_elem_of_lookup_2; eauto.
  - unfold post_upvote. destruct (findIndex _ _) as [i|]; [|exact H].
    destruct (problems st !! i) as [old|] eqn:Hi; [|exact H]. simpl.
    apply Forall_insert; [exact H|]. simpl.
    rewrite Forall_forall in H. apply H. eapply list_elem_of_lookup_2; eauto.
  - unfold patch_status. destruct (findIndex _ _) as [i|]; [|exact H].
    destruct (includes valid_statuses (b_status b)) eqn:Ev; simpl; [|exact H].
    destruct (problems st !! i) as [old|] eqn:Hi; [|exact H]. simpl.
    apply Forall_insert; [exact H|]. simpl. now apply includes_valid_statuses.
  - unfold delete_problem. destruct (findIndex _ _) as [i|]; [|exact H].
    destruct (problems st !! i) as [old|] eqn:Hi; [|exact H]. simpl.
    now apply Forall_delete.
  - now rewrite js_sort_perm.
Qed.

Lemma statuses_recognized_serve (reqs : list Request) (st : State) :
  Forall put_status_ok reqs -> statuses_recognized st ->
  statuses_recognized (serve reqs st).2.
Proof.
  revert st. induction reqs as [|req rest IH]; intros st Hok H; simpl; [exact H|].
  apply Forall_cons in Hok. destruct Hok as [Hreq Hrest].
  pose proof (statuses_recognized_handle req st Hreq H) as H1.
  destruct (handle req st) as [resp st1]. simpl in H1.
  specialize (IH st1 Hrest H1). destruct (serve rest st1) as [resps st2]. exact IH.
Qed.

(** * The claims *)

(** C1 (status invariant), evaluated at the request sequence that breaks it:
    after a Create and an Update whose body carries [status: "bogus"], the
    registry is in a reachable state whose only record has the status
    ["bogus"], which is none of 'open', 'in-progress', 'resolved'.  The
    Update handler stores whatever truthy status it is given, whereas the
    ChangeStatus handler checks it against the three values. *)
Theorem update_stores_unrecognized_status :
  let st := (serve [PostProblem pothole 0 0;
                    PutProblem "1" (only_status (JStr "bogus")) 1] init).2 in
  reachable st /\
  exists p, problems st = [p] /\ status p = JStr "bogus" /\
            ~ recognized_status (status p).
Proof.
  split.
  - eexists. reflexivity.
  - eexists. split; [reflexivity|]. split; [reflexivity|].
    simpl. intros [H|[H|H]]; discriminate H.
Qed.

(** C2 (identifiers): for every sequence of requests served from the empty
    registry, the ids handed out by the successful Creates, in the order of
    the requests, are strictly increasing, hence never repeated (also after
    deletions), and the ids of the records in the registry are pairwise
    distinct. *)
Theorem ids_strictly_increasing_and_never_reused (reqs : list Request) :
  let resps := (serve reqs init).1 in
  let st := (serve reqs init).2 in
  StronglySorted Z.lt (created_ids reqs resps) /\
  NoDup (created_ids reqs resps) /\
  NoDup (map id (problems st)).
Proof.
  simpl. destruct (created_ids_serve reqs init ids_fresh_init) as [Hs _].
  split; [exact Hs|]. split; [now apply StronglySorted_lt_NoDup|].
  apply (ids_fresh_serve reqs init ids_fresh_init).
Qed.

(** C3 (failures do not mutate): in every state, (1) a request answered with
    NotFound or InvalidInput leaves the records, their order and the counter
    as they were; (2) Get, Update, Upvote, ChangeStatus and Delete on a
    segment whose id no record has are answered with NotFound, state
    unchanged; (3) ChangeStatus on an existing id with a status outside the
    three recognized values is answered with InvalidInput, state unchanged;
    (4) ChangeStatus with such a status fails and changes nothing whether or
    not the id exists. *)
Theorem failing_requests_leave_state_unchanged (st : State) :
  (forall req, is_failure (handle req st).1 -> (handle req st).2 = st) /\
  (forall idp body now,
      (forall p, In p (problems st) -> parseInt idp <> Some (id p)) ->
      Forall (fun req => handle req st = (NotFound, st)) (id_addressed idp body now)) /\
  (forall idp body now p,
      In p (problems st) -> parseInt idp = Some (id p) ->
      ~ recognized_status (b_status body) ->
      handle (PatchStatus idp body now) st =
      (InvalidInput "Invalid status. Must be: open, in-progress, or resolved", st)) /\
  (forall idp body now,
      ~ recognized_status (b_status body) ->
      is_failure (handle (PatchStatus idp body now) st).1 /\
      (handle (PatchStatus idp body now) st).2 = st).
Proof.
  assert (Hbad : forall body, ~ recognized_status (b_status body) ->
                              includes valid_statuses (b_status body) = false).
  { intros body Hn. destruct (includes valid_statuses (b_status body)) eqn:E; [|reflexivity].
    apply includes_valid_statuses in E. contradiction. }
  split; [|split; [|split]].
  - intros req. apply failure_no_mutation.
  - intros idp body now Habs. apply id_absent_all_not_found.
    now apply id_absent_findIndex.
  - intros idp body now p Hp Hid Hn.
    destruct (id_present_findIndex idp _ p Hp Hid) as (i & q & Hi & _).
    simpl. unfold patch_status. rewrite Hi, (Hbad body Hn). reflexivity.
  - intros idp body now Hn. simpl. unfold patch_status.
    destruct (findIndex _ _); [rewrite (Hbad body Hn)|]; simpl; auto.
Qed.

Lemma failing_requests_leave_state_unchanged_witness :
  Forall (fun req => handle req one_report = (NotFound, one_report))
         (id_addressed "7" empty_body 9) /\
  handle (PatchStatus "1" (only_status (JStr "bogus")) 9) one_report =
  (InvalidInput "Invalid status. Must be: open, in-progress, or resolved", one_report).
Proof.
  destruct (failing_requests_leave_state_unchanged one_report) as (_ & Habsent & Hinvalid & _).
  split.
  - apply Habsent. intros p [<-|[]]. discriminate.
  - apply (Hinvalid "1" _ 9 (mkProblem 1 (JStr "Pothole") (JStr "Large pothole")
                               (JStr "infrastructure") (JStr "Main St") 0 (JStr "open") 5 5)).
    + left. reflexivity.
    + reflexivity.
    + simpl. intros [H|[H|H]]; discriminate H.
Defined.

(** C4 as the claim states it fails twice.  A body whose title is the number
    0 has all four fields present and none empty, yet Create answers
    InvalidInput; and a valid Create whose two clock readings differ stores
    a record whose createdAt and updatedAt differ. *)
Lemma create_rejects_zero_and_reads_clock_twice :
  (let body := {| b_title := JNum 0; b_description := JStr "Large pothole";
                  b_category := JStr "infrastructure"; b_location := JStr "Main St";
                  b_status := JUndefined |} in
   ~ (missing_or_empty (b_title body) \/ missing_or_empty (b_description body) \/
      missing_or_empty (b_category body) \/ missing_or_empty (b_location body)) /\
   handle (PostProblem body 0 0) init =
   (InvalidInput "Please provide all required fields", init)) /\
  (exists p st,
      handle (PostProblem pothole 0 1) init =
      (ProblemOk 201 (Some "Problem reported successfully") p, st) /\
      createdAt p <> updatedAt p).
Proof.
  split.
  - split; [|reflexivity]. unfold missing_or_empty. simpl.
    intros [[H|H]|[[H|H]|[[H|H]|[H|H]]]]; discriminate H.
  - do 2 eexists. split; [reflexivity|]. simpl. discriminate.
Qed.

(** C4, amended: Create answers InvalidInput exactly when one of title,
    description, category, location is falsy (missing, null, false, 0 or the
    empty string), and then changes nothing; otherwise it appends exactly one
    record, which carries the counter value as id, the four supplied fields,
    upvotes 0, status 'open', the first clock reading as createdAt and the
    second as updatedAt, returns that record with code 201, and advances the
    counter by one. *)
Theorem create_validates_then_appends
        (body : Body) (now1 now2 : timestamp) (st : State) :
  let rejected :=
    falsy (b_title body) \/ falsy (b_description body) \/
    falsy (b_category body) \/ falsy (b_location body) in
  let newProblem :=
    {| id := nextId st; title := b_title body; description := b_description body;
       category := b_category body; location := b_location body;
       upvotes := 0; status := JStr "open";
       createdAt := now1; updatedAt := now2 |} in
  ((exists m, (handle (PostProblem body now1 now2) st).1 = InvalidInput m) <-> rejected) /\
  (rejected ->
   handle (PostProblem body now1 now2) st =
   (InvalidInput "Please provide all required fields", st)) /\
  (~ rejected ->
   handle (PostProblem body now1 now2) st =
   (ProblemOk 201 (Some "Problem reported successfully") newProblem,
    {| problems := problems st ++ [newProblem]; nextId := nextId st + 1 |})).
Proof.
  simpl. unfold post_problem.
  rewrite <- !truthy_false.
  destruct (truthy (b_title body)), (truthy (b_description body)),
    (truthy (b_category body)), (truthy (b_location body)); simpl;
    (split; [split; [intros [m Hm]; first [discriminate Hm | tauto]
                    | intros H; first [now eexists | exfalso; intuition congruence]]
            | split; [intros H; first [reflexivity | exfalso; intuition congruence]
                     | intros H; first [reflexivity | exfalso; apply H; tauto]]]).
Qed.

Lemma create_validates_then_appends_witness :
  handle (PostProblem empty_body 1 2) init =
  (InvalidInput "Please provide all required fields", init) /\
  handle (PostProblem pothole 1 2) init =
  (ProblemOk 201 (Some "Problem reported successfully")
     (mkProblem 1 (JStr "Pothole") (JStr "Large pothole") (JStr "infrastructure")
                (JStr "Main St") 0 (JStr "open") 1 2),
   {| problems := [mkProblem 1 (JStr "Pothole") (JStr "Large pothole")
                             (JStr "infrastructure") (JStr "Main St") 0 (JStr "open") 1 2];
      nextId := 2 |}).
Proof.
  split.
  - apply (create_validates_then_appends empty_body 1 2 init).
    left. left. reflexivity.
  - apply (create_validates_then_appends pothole 1 2 init).
    unfold falsy. simpl. intros [H|[H|[H|H]]];
      destruct H as [H|[H|[H|[H|H]]]]; discriminate H.
Defined.

(** C5 as the claim states it fails: a record created at instant 5 and
    upvoted at the same instant 5 (the clock has millisecond resolution)
    shows, in the following Get, an updatedAt that is not strictly greater
    than the one it had before the upvote. *)
Lemma upvote_in_same_instant_keeps_updatedAt :
  exists before after,
    handle (GetProblem "1") one_report = (ProblemOk 200 None before, one_report) /\
    (handle (GetProblem "1") (handle (PostUpvote "1" 5) one_report).2).1 =
    ProblemOk 200 None after /\
    upvotes after = upvotes before + 1 /\
    ~ (updatedAt before < updatedAt after).
Proof.
  do 2 eexists. split; [reflexivity|]. split; [reflexivity|].
  split; [reflexivity|]. simpl. lia.
Qed.

(** C5, amended: for every record of a reachable registry, Upvote on a
    segment that parses to its id answers 200 with the record changed in two
    fields only, upvotes greater by exactly 1 and updatedAt set to the clock
    reading of the upvote; the record is replaced in place, every other slot
    and the counter are unchanged; a subsequent Get shows that record; its
    updatedAt is strictly greater than before whenever the clock reading is
    later than the previous updatedAt. *)
Theorem upvote_increments_by_one
        (st : State) (idp : string) (now : timestamp) (p : Problem) :
  reachable st -> In p (problems st) -> parseInt idp = Some (id p) ->
  let p' :=
    {| id := id p; title := title p; description := description p;
       category := category p; location := location p;
       upvotes := upvotes p + 1; status := status p;
       createdAt := createdAt p; updatedAt := now |} in
  exists i st',
    problems st !! i = Some p /\
    handle (PostUpvote idp now) st = (ProblemOk 200 (Some "Upvote recorded") p', st') /\
    problems st' = <[i := p']> (problems st) /\
    nextId st' = nextId st /\
    handle (GetProblem idp) st' = (ProblemOk 200 None p', st') /\
    (updatedAt p < now -> updatedAt p < updatedAt p').
Proof.
  intros Hr Hp Hid p'.
  destruct (addressed_record st idp p Hr Hp Hid) as (i & Hi & Hl).
  exists i. eexists. split; [exact Hl|].
  split; [simpl; unfold post_upvote; rewrite Hi, Hl; reflexivity|].
  split; [reflexivity|]. split; [reflexivity|]. split; [|intros H; exact H].
  simpl. unfold get_problem. simpl. rewrite find_findIndex.
  rewrite (findIndex_insert_same _ _ i _ Hi).
  - rewrite list_lookup_insert_eq; [reflexivity|]. eapply lookup_lt_Some; eauto.
  - apply id_matches_true. exact Hid.
Qed.

Lemma upvote_increments_by_one_witness :
  exists st',
    handle (PostUpvote "1abc" 8) one_report =
    (ProblemOk 200 (Some "Upvote recorded")
       (mkProblem 1 (JStr "Pothole") (JStr "Large pothole") (JStr "infrastructure")
                  (JStr "Main St") 1 (JStr "open") 5 8), st').
Proof.
  destruct (upvote_increments_by_one one_report "1abc" 8
              (mkProblem 1 (JStr "Pothole") (JStr "Large pothole")
                         (JStr "infrastructure") (JStr "Main St") 0 (JStr "open") 5 5))
    as (i & st' & _ & H & _).
  - exists [PostProblem pothole 5 5]. reflexivity.
  - left. reflexivity.
  - reflexivity.
  - exists st'. exact H.
Defined.

(** C6 (statistics): in every state Stats answers 200 with: total, the
    number of records; open, inProgress and resolved, the numbers of records
    whose status is that value; for each of the five recognized categories
    the number of records whose category is exactly it, their sum being at
    most total; and topUpvoted, the first five of the records arranged in
    non-increasing order of upvotes.  (The handler leaves the records stored
    in that arrangement.) *)
Theorem stats_counts_and_top_five (st : State) :
  exists s sorted,
    handle GetStats st = (StatsOk s, {| problems := sorted; nextId := nextId st |}) /\
    total s = length (problems st) /\
    open s = length (filter (fun p => status p = JStr "open") (problems st)) /\
    inProgress s = length (filter (fun p => status p = JStr "in-progress") (problems st)) /\
    resolved s = length (filter (fun p => status p = JStr "resolved") (problems st)) /\
    infrastructure (categories s) =
      length (filter (fun p => category p = JStr "infrastructure") (problems st)) /\
    safety (categories s) =
      length (filter (fun p => category p = JStr "safety") (problems st)) /\
    environment (categories s) =
      length (filter (fun p => category p = JStr "environment") (problems st)) /\
    education (categories s) =
      length (filter (fun p => category p = JStr "education") (problems st)) /\
    health (categories s) =
      length (filter (fun p => category p = JStr "health") (problems st)) /\
    (categories_sum (categories s) <= total s)%nat /\
    Permutation sorted (problems st) /\
    StronglySorted upvotes_desc sorted /\
    topUpvoted s = take 5 sorted.
Proof.
  do 2 eexists. split; [reflexivity|]. cbn [total open inProgress resolved categories
    infrastructure safety environment education health topUpvoted].
  repeat match goal with
         | |- count_where _ _ = _ /\ _ =>
             split; [apply count_where_prop; intros x; apply strict_eq_true|]
         end.
  split; [reflexivity|].
  repeat match goal with
         | |- count_where _ _ = _ /\ _ =>
             split; [apply count_where_prop; intros x; apply strict_eq_true|]
         end.
  split; [apply category_counts_le|].
  split; [apply js_sort_perm|].
  split; [apply js_sort_upvotes_desc|reflexivity].
Qed.

(** C7 as the claim states it fails: a status filter that is supplied as the
    empty string ([?status=]) selects no record by equality, since every
    record of this registry has the status 'open', yet List returns the
    record. *)
Lemma list_ignores_empty_status_filter :
  exists p,
    handle (GetProblems {| q_status := JStr ""; q_category := JUndefined |}) one_report =
    (ListOk 1 [p], one_report) /\
    status p <> JStr "".
Proof.
  eexists. split; [reflexivity|]. simpl. discriminate.
Qed.

(** C7, amended: in every state and for every status and category filter,
    List answers 200 with exactly the records that equal every supplied
    filter on the corresponding field, in storage order, and changes nothing;
    a filter that is missing or falsy (such as the empty string) constrains
    nothing.  With no filter the answer is the whole collection, and it is
    the empty sequence when no record matches. *)
Theorem list_returns_selected_in_order (query : Query) (st : State) :
  handle (GetProblems query) st =
  (ListOk (length (filter (selected query) (problems st)))
          (filter (selected query) (problems st)), st) /\
  (q_status query = JUndefined -> q_category query = JUndefined ->
   filter (selected query) (problems st) = problems st) /\
  ((forall p, In p (problems st) -> ~ selected query p) ->
   filter (selected query) (problems st) = []).
Proof.
  assert (E : (if truthy (q_category query)
               then List.filter (fun p => strict_eq (category p) (q_category query))
                      (if truthy (q_status query)
                       then List.filter (fun p => strict_eq (status p) (q_status query))
                              (problems st)
                       else problems st)
               else (if truthy (q_status query)
                     then List.filter (fun p => strict_eq (status p) (q_status query))
                            (problems st)
                     else problems st))
              = filter (selected query) (problems st)).
  { rewrite <- (filter_bool_prop
                  (fun p => (if truthy (q_status query)
                             then strict_eq (status p) (q_status query) else true)
                            && (if truthy (q_category query)
                                then strict_eq (category p) (q_category query) else true))).
    - rewrite <- filter_bool_twice.
      destruct (truthy (q_status query)), (truthy (q_category query));
        rewrite ?filter_bool_all; reflexivity.
    - intros p. unfold selected. rewrite Bool.andb_true_iff, <- !truthy_true.
      destruct (truthy (q_status query)), (truthy (q_category query));
        rewrite ?strict_eq_true; intuition congruence. }
  split; [|split].
  - simpl. unfold get_problems. cbv zeta. rewrite E. reflexivity.
  - intros Hs Hc. rewrite <- E, Hs, Hc. reflexivity.
  - apply filter_none.
Qed.

Lemma list_returns_selected_in_order_witness :
  filter (selected {| q_status := JUndefined; q_category := JUndefined |})
         (problems one_report) = problems one_report /\
  filter (selected {| q_status := JStr "resolved"; q_category := JUndefined |})
         (problems one_report) = [].
Proof.
  split.
  - apply (list_returns_selected_in_order
             {| q_status := JUndefined; q_category := JUndefined |} one_report);
      reflexivity.
  - apply (list_returns_selected_in_order
             {| q_status := JStr "resolved"; q_category := JUndefined |} one_report).
    intros p [<-|[]] [Hs _]. simpl in Hs.
    assert (JStr "open" = JStr "resolved"); [|discriminate].
    apply Hs. unfold falsy. intros [H|[H|[H|[H|H]]]]; discriminate H.
Defined.

(** C8 (delete): for every record of a reachable registry, Delete on a
    segment that parses to its id answers 200 with that record, removes it
    and nothing else (the records before it and after it stay, in order), so
    that the size decreases by exactly 1, keeps the counter, and a subsequent
    Get on the same segment answers NotFound. *)
Theorem delete_removes_exactly_that_record
        (st : State) (idp : string) (p : Problem) :
  reachable st -> In p (problems st) -> parseInt idp = Some (id p) ->
  exists before after st',
    problems st = before ++ p :: after /\
    handle (DeleteProblem idp) st =
    (ProblemOk 200 (Some "Problem deleted successfully") p, st') /\
    problems st' = before ++ after /\
    nextId st' = nextId st /\
    length (problems st) = S (length (problems st')) /\
    handle (GetProblem idp) st' = (NotFound, st').
Proof.
  intros Hr Hp Hid.
  destruct (addressed_record st idp p Hr Hp Hid) as (i & Hi & Hl).
  destruct (lookup_split _ i p Hl) as [Hsplit Hdel].
  exists (take i (problems st)), (drop (S i) (problems st)). eexists.
  split; [exact Hsplit|].
  split; [simpl; unfold delete_problem; rewrite Hi, Hl; reflexivity|].
  split; [exact Hdel|]. split; [reflexivity|]. split.
  - cbn [problems]. rewrite Hdel. rewrite Hsplit at 1. rewrite !length_app. simpl. lia.
  - simpl. unfold get_problem. cbn [problems]. rewrite find_findIndex.
    rewrite (deleted_id_absent _ i p idp); auto.
    apply reachable_ids_fresh in Hr. apply Hr.
Qed.

Lemma delete_removes_exactly_that_record_witness :
  exists st',
    handle (DeleteProblem "1") one_report =
    (ProblemOk 200 (Some "Problem deleted successfully")
       (mkProblem 1 (JStr "Pothole") (JStr "Large pothole") (JStr "infrastructure")
                  (JStr "Main St") 0 (JStr "open") 5 5), st') /\
    handle (GetProblem "1") st' = (NotFound, st').
Proof.
  destruct (delete_removes_exactly_that_record one_report "1"
              (mkProblem 1 (JStr "Pothole") (JStr "Large pothole")
                         (JStr "infrastructure") (JStr "Main St") 0 (JStr "open") 5 5))
    as (before & after & st' & _ & Hdel & _ & _ & _ & Hget).
  - exists [PostProblem pothole 5 5]. reflexivity.
  - left. reflexivity.
  - reflexivity.
  - exists st'. split; assumption.
Defined.

(** C9 (update with nothing to apply): for every record of a reachable
    registry, an Update on a segment that parses to its id, whose title,
    description, category, location and status are all absent or falsy,
    answers 200 with the record changed in updatedAt only, which is set to
    the clock reading; the record is replaced in place and every other slot,
    the length and the counter are unchanged. *)
Theorem update_without_fields_only_refreshes_updatedAt
        (st : State) (idp : string) (body : Body) (now : timestamp) (p : Problem) :
  reachable st -> In p (problems st) -> parseInt idp = Some (id p) ->
  falsy (b_title body) -> falsy (b_description body) -> falsy (b_category body) ->
  falsy (b_location body) -> falsy (b_status body) ->
  let p' :=
    {| id := id p; title := title p; description := description p;
       category := category p; location := location p;
       upvotes := upvotes p; status := status p;
       createdAt := createdAt p; updatedAt := now |} in
  exists i st',
    problems st !! i = Some p /\
    handle (PutProblem idp body now) st =
    (ProblemOk 200 (Some "Problem updated successfully") p', st') /\
    problems st' = <[i := p']> (problems st) /\
    (forall j, j <> i -> problems st' !! j = problems st !! j) /\
    length (problems st') = length (problems st) /\
    nextId st' = nextId st.
Proof.
  intros Hr Hp Hid Ht Hd Hc Hl Hs p'.
  destruct (addressed_record st idp p Hr Hp Hid) as (i & Hi & Hlk).
  exists i. eexists. split; [exact Hlk|].
  split; [simpl; unfold put_problem; rewrite Hi, Hlk;
          rewrite !spread_if_falsy by assumption; reflexivity|].
  split; [reflexivity|]. split; [|split; [|reflexivity]].
  - intros j Hj. cbn [problems]. apply list_lookup_insert_ne. congruence.
  - cbn [problems]. apply length_insert.
Qed.

Lemma update_without_fields_only_refreshes_updatedAt_witness :
  exists st',
    handle (PutProblem "1" (only_status (JStr "")) 9) one_report =
    (ProblemOk 200 (Some "Problem updated successfully")
       (mkProblem 1 (JStr "Pothole") (JStr "Large pothole") (JStr "infrastructure")
                  (JStr "Main St") 0 (JStr "open") 5 9), st').
Proof.
  destruct (update_without_fields_only_refreshes_updatedAt one_report "1"
              (only_status (JStr "")) 9
              (mkProblem 1 (JStr "Pothole") (JStr "Large pothole")
                         (JStr "infrastructure") (JStr "Main St") 0 (JStr "open") 5 5))
    as (i & st' & _ & H & _);
    try (left; reflexivity); try reflexivity.
  - exists [PostProblem pothole 5 5]. reflexivity.
  - unfold falsy. simpl. tauto.
  - exists st'. exact H.
Defined.

(** C10 as the claim states it fails: the leading characters of the segment
    "0x10" form the decimal integer 0, followed by non-numeric characters,
    and the registry with sixteen reports has no record 0; yet Get on that
    segment answers with the record whose id is 16, because parseInt reads
    the segment as a hexadecimal number. *)
Lemma hex_segment_addresses_hex_id :
  leading_decimal "0x10" = Some 0 /\
  Forall (fun p => id p <> 0) (problems sixteen_reports) /\
  exists p,
    handle (GetProblem "0x10") sixteen_reports = (ProblemOk 200 None p, sixteen_reports) /\
    id p = 16.
Proof.
  split; [reflexivity|]. split.
  - vm_compute. repeat constructor; discriminate.
  - exists (mkProblem 16 (JStr "Pothole") (JStr "Large pothole") (JStr "infrastructure")
                      (JStr "Main St") 0 (JStr "open") 0 0).
    split; [vm_compute; reflexivity|reflexivity].
Qed.

(** C10, amended: the id path segment is interpreted by parseInt.  A segment
    whose leading characters form a decimal integer n, and which does not
    start with 0x or 0X, parses to n whatever follows the digits: when some
    record has id n, Get, Update, Upvote and Delete answer with a record of
    id n and ChangeStatus does so for a recognized status (and answers
    InvalidInput otherwise); when no record has id n all five answer
    NotFound.  A segment for which parseInt yields NaN always results in
    NotFound, the state unchanged. *)
Theorem path_segment_is_parsed_by_parseInt
        (idp : string) (body : Body) (now : timestamp) (st : State) :
  (forall n, leading_decimal idp = Some n -> hex_prefixed idp = false ->
     parseInt idp = Some n /\
     ((exists p, In p (problems st) /\ id p = n) ->
        Forall (fun req => answers_for n (handle req st).1)
               [GetProblem idp; PutProblem idp body now; PostUpvote idp now;
                DeleteProblem idp] /\
        (recognized_status (b_status body) ->
           answers_for n (handle (PatchStatus idp body now) st).1) /\
        (~ recognized_status (b_status body) ->
           exists m, handle (PatchStatus idp body now) st = (InvalidInput m, st))) /\
     ((forall p, In p (problems st) -> id p <> n) ->
        Forall (fun req => handle req st = (NotFound, st)) (id_addressed idp body now))) /\
  (parseInt idp = None ->
     Forall (fun req => handle req st = (NotFound, st)) (id_addressed idp body now)).
Proof.
  split.
  - intros n Hn Hx. pose proof (parseInt_leading_decimal idp n Hn Hx) as Hp.
    split; [exact Hp|]. split.
    + intros (p & Hin & Hid). subst n.
      destruct (id_present_findIndex idp _ p Hin Hp) as (i & q & Hi & Hq & Hqp).
      split; [|split].
      * repeat constructor; simpl;
          unfold get_problem, put_problem, post_upvote, delete_problem;
          rewrite ?find_findIndex, Hi, Hq; simpl; exact Hqp.
      * intros Hr. apply includes_valid_statuses in Hr.
        simpl. unfold patch_status. rewrite Hi, Hr, Hq. simpl. exact Hqp.
      * intros Hr. eexists. simpl. unfold patch_status. rewrite Hi.
        destruct (includes valid_statuses (b_status body)) eqn:E; [|reflexivity].
        apply includes_valid_statuses in E. contradiction.
    + intros Habs. apply id_absent_all_not_found, id_absent_findIndex.
      intros p Hin. rewrite Hp. intros E. inversion E. apply (Habs p Hin). congruence.
  - intros Hnan. apply id_absent_all_not_found, id_absent_findIndex.
    intros p _. rewrite Hnan. discriminate.
Qed.

Lemma path_segment_is_parsed_by_parseInt_witness :
  parseInt "1abc" = Some 1 /\
  answers_for 1 (handle (GetProblem "1abc") one_report).1 /\
  handle (DeleteProblem "abc") one_report = (NotFound, one_report).
Proof.
  destruct (path_segment_is_parsed_by_parseInt "1abc" empty_body 9 one_report) as [Hdec _].
  destruct (Hdec 1 eq_refl eq_refl) as (Hparse & Hpresent & _).
  destruct Hpresent as (Hall & _ & _).
  { eexists. split; [left; reflexivity|reflexivity]. }
  destruct (path_segment_is_parsed_by_parseInt "abc" empty_body 9 one_report) as [_ Hnan].
  specialize (Hnan eq_refl).
  split; [exact Hparse|]. split.
  - inversion Hall; assumption.
  - unfold id_addressed in Hnan. rewrite !Forall_cons in Hnan. tauto.
Defined.


(** * Further properties of the handlers *)

(** ** Reachability and uniqueness *)

Lemma serve_app (reqs1 reqs2 : list Request) (st : State) :
  serve (reqs1 ++ reqs2) st =
  ((serve reqs1 st).1 ++ (serve reqs2 (serve reqs1 st).2).1,
   (serve reqs2 (serve reqs1 st).2).2).
Proof.
  revert st. induction reqs1 as [|req rest IH]; intros st; simpl.
  - now destruct (serve reqs2 st).
  - destruct (handle req st) as [resp st1]. rewrite IH.
    destruct (serve rest st1) as [resps st2]. reflexivity.
Qed.

Lemma reachable_serve (reqs : list Request) (st : State) :
  reachable st -> reachable (serve reqs st).2.
Proof.
  intros [reqs0 <-]. exists (reqs0 ++ reqs). now rewrite serve_app.
Qed.

Lemma reachable_handle (req : Request) (st : State) :
  reachable st -> reachable (handle req st).2.
Proof.
  intros H. pose proof (reachable_serve [req] st H) as H1. simpl in H1.
  now destruct (handle req st).
Qed.

Lemma unique_by_id (l : list Problem) (p q : Problem) :
  NoDup (map id l) -> In p l -> In q l -> id q = id p -> q = p.
Proof.
  intros Hnd Hp Hq Hid. pose proof Hq as Hq'.
  apply list_elem_of_In, list_elem_of_lookup in Hq'. destruct Hq' as [i Hi].
  now apply (unique_id_lookup l i p q).
Qed.

Lemma In_insert (l : list Problem) (i : nat) (u x : Problem) :
  In x (<[i := u]> l) -> x = u \/ In x l.
Proof.
  revert i. induction l as [|a l IH]; intros [|i] H; simpl in H; auto.
  - destruct H as [<-|H]; [now left|right; now right].
  - destruct H as [<-|H]; [right; now left|].
    destruct (IH i H) as [->|Hx]; [now left|right; now right].
Qed.

Lemma In_delete (l : list Problem) (i : nat) (x : Problem) :
  In x (delete i l) -> In x l.
Proof.
  intros H. apply list_elem_of_In. apply list_elem_of_In in H.
  now apply list_elem_of_delete_inv in H.
Qed.

Lemma findIndex_app_last {A : Type} (f : A -> bool) (l : list A) (x : A) :
  findIndex f l = None -> f x = true -> findIndex f (l ++ [x]) = Some (length l).
Proof.
  intros Hn Hx. induction l as [|a l IH]; simpl in *; [now rewrite Hx|].
  destruct (f a); [discriminate|].
  destruct (findIndex f l); [discriminate|]. now rewrite IH.
Qed.

Lemma ids_below_counter (st : State) (p : Problem) :
  reachable st -> In p (problems st) -> id p < nextId st.
Proof.
  intros Hr Hp. apply reachable_ids_fresh in Hr. destruct Hr as [_ Hlt].
  rewrite Forall_forall in Hlt. apply Hlt. now apply list_elem_of_In.
Qed.

Lemma reachable_one_report : reachable one_report.
Proof. exists [PostProblem pothole 5 5]. reflexivity. Qed.

Lemma spread_if_applied (v old : jsval) : spread_if v old = applied v old.
Proof.
  unfold spread_if, applied. destruct (decide (falsy v)) as [Hf|Hf].
  - apply truthy_false in Hf. now rewrite Hf.
  - apply truthy_true in Hf. now rewrite Hf.
Qed.

(** ** ChangeStatus and Update on an existing record *)

(** X1: PATCH /problems/:id/status on a record of a reachable registry, with any
    of the three recognized values and whatever the current status is,
    answers 200 with the record changed in status and updatedAt only; the
    record is replaced in place, the counter is kept, and a following Get
    shows the new record. *)
Theorem change_status_sets_status_and_updatedAt
        (st : State) (idp : string) (body : Body) (now : timestamp) (p : Problem) :
  reachable st -> In p (problems st) -> parseInt idp = Some (id p) ->
  recognized_status (b_status body) ->
  let p' :=
    {| id := id p; title := title p; description := description p;
       category := category p; location := location p;
       upvotes := upvotes p; status := b_status body;
       createdAt := createdAt p; updatedAt := now |} in
  exists i st',
    problems st !! i = Some p /\
    handle (PatchStatus idp body now) st =
    (ProblemOk 200 (Some "Status updated successfully") p', st') /\
    problems st' = <[i := p']> (problems st) /\
    nextId st' = nextId st /\
    handle (GetProblem idp) st' = (ProblemOk 200 None p', st').
Proof.
  intros Hr Hp Hid Hrec p'.
  destruct (addressed_record st idp p Hr Hp Hid) as (i & Hi & Hl).
  apply includes_valid_statuses in Hrec.
  exists i. eexists. split; [exact Hl|].
  split; [simpl; unfold patch_status; rewrite Hi, Hrec, Hl; reflexivity|].
  split; [reflexivity|]. split; [reflexivity|].
  simpl. unfold get_problem. simpl. rewrite find_findIndex.
  rewrite (findIndex_insert_same _ _ i _ Hi).
  - rewrite list_lookup_insert_eq; [reflexivity|]. eapply lookup_lt_Some; eauto.
  - apply id_matches_true. exact Hid.
Qed.

Lemma change_status_sets_status_and_updatedAt_witness :
  exists st',
    handle (PatchStatus "1" (only_status (JStr "resolved")) 9) one_report =
    (ProblemOk 200 (Some "Status updated successfully")
       (mkProblem 1 (JStr "Pothole") (JStr "Large pothole") (JStr "infrastructure")
                  (JStr "Main St") 0 (JStr "resolved") 5 9), st').
Proof.
  destruct (change_status_sets_status_and_updatedAt one_report "1"
              (only_status (JStr "resolved")) 9 reported)
    as (i & st' & _ & H & _).
  - exact reachable_one_report.
  - left. reflexivity.
  - reflexivity.
  - right. right. reflexivity.
  - exists st'. exact H.
Defined.

(** X2: PUT /problems/:id on a record of a reachable registry answers 200 with
    the record in which each of title, description, category, location and
    status is the body's value when that value is not falsy and the old
    value otherwise, updatedAt is the clock reading, and id, upvotes and
    createdAt are the old ones; the record is replaced in place, the counter
    is kept, and a following Get shows the new record. *)
Theorem update_applies_the_truthy_fields
        (st : State) (idp : string) (body : Body) (now : timestamp) (p : Problem) :
  reachable st -> In p (problems st) -> parseInt idp = Some (id p) ->
  let p' :=
    {| id := id p;
       title := applied (b_title body) (title p);
       description := applied (b_description body) (description p);
       category := applied (b_category body) (category p);
       location := applied (b_location body) (location p);
       upvotes := upvotes p;
       status := applied (b_status body) (status p);
       createdAt := createdAt p; updatedAt := now |} in
  exists i st',
    problems st !! i = Some p /\
    handle (PutProblem idp body now) st =
    (ProblemOk 200 (Some "Problem updated successfully") p', st') /\
    problems st' = <[i := p']> (problems st) /\
    nextId st' = nextId st /\
    handle (GetProblem idp) st' = (ProblemOk 200 None p', st').
Proof.
  intros Hr Hp Hid p'.
  destruct (addressed_record st idp p Hr Hp Hid) as (i & Hi & Hl).
  exists i. eexists. split; [exact Hl|].
  split; [simpl; unfold put_problem; rewrite Hi, Hl, !spread_if_applied; reflexivity|].
  split; [reflexivity|]. split; [reflexivity|].
  simpl. unfold get_problem. simpl. rewrite find_findIndex.
  rewrite (findIndex_insert_same _ _ i _ Hi).
  - rewrite list_lookup_insert_eq; [reflexivity|]. eapply lookup_lt_Some; eauto.
  - apply id_matches_true. exact Hid.
Qed.

Lemma update_applies_the_truthy_fields_witness :
  exists st',
    handle (PutProblem "1" {| b_title := JStr "Sinkhole"; b_description := JStr "";
                              b_category := JNull; b_location := JUndefined;
                              b_status := JStr "in-progress" |} 9) one_report =
    (ProblemOk 200 (Some "Problem updated successfully")
       (mkProblem 1 (JStr "Sinkhole") (JStr "Large pothole") (JStr "infrastructure")
                  (JStr "Main St") 0 (JStr "in-progress") 5 9), st').
Proof.
  destruct (update_applies_the_truthy_fields one_report "1"
              {| b_title := JStr "Sinkhole"; b_description := JStr "";
                 b_category := JNull; b_location := JUndefined;
                 b_status := JStr "in-progress" |} 9 reported)
    as (i & st' & _ & H & _).
  - exact reachable_one_report.
  - left. reflexivity.
  - reflexivity.
  - exists st'. exact H.
Defined.

(** X3: As long as no Update carries a status that is truthy and outside the
    three recognized values, every stored status is one of 'open',
    'in-progress', 'resolved' after any sequence of requests. *)
Theorem statuses_stay_recognized_without_bad_update (reqs : list Request) :
  Forall put_status_ok reqs -> statuses_recognized (serve reqs init).2.
Proof.
  intros Hok. apply statuses_recognized_serve; [exact Hok|]. constructor.
Qed.

Lemma statuses_stay_recognized_without_bad_update_witness :
  statuses_recognized
    (serve [PostProblem pothole 1 1; PatchStatus "1" (only_status (JStr "resolved")) 2;
            PutProblem "1" (only_status (JStr "")) 3] init).2.
Proof.
  apply statuses_stay_recognized_without_bad_update.
  constructor; [exact I|]. constructor; [exact I|]. constructor; [|constructor].
  simpl. left. unfold falsy. tauto.
Defined.

(** ** Create followed by Get and Delete *)

Lemma post_problem_accepts (body : Body) (now1 now2 : timestamp) (st : State) :
  ~ falsy (b_title body) -> ~ falsy (b_description body) ->
  ~ falsy (b_category body) -> ~ falsy (b_location body) ->
  post_problem body now1 now2 st =
  (ProblemOk 201 (Some "Problem reported successfully")
     (mkProblem (nextId st) (b_title body) (b_description body) (b_category body)
                (b_location body) 0 (JStr "open") now1 now2),
   {| problems := problems st ++
                  [mkProblem (nextId st) (b_title body) (b_description body)
                             (b_category body) (b_location body) 0 (JStr "open") now1 now2];
      nextId := nextId st + 1 |}).
Proof.
  intros Ht Hd Hc Hl. apply truthy_true in Ht, Hd, Hc, Hl.
  unfold post_problem. rewrite Ht, Hd, Hc, Hl. reflexivity.
Qed.

Lemma counter_value_is_unused (st : State) (idp : string) :
  reachable st -> parseInt idp = Some (nextId st) ->
  findIndex (id_matches idp) (problems st) = None.
Proof.
  intros Hr Hid. apply id_absent_findIndex. intros p Hp. rewrite Hid. intros E.
  inversion E as [E']. pose proof (ids_below_counter st p Hr Hp). lia.
Qed.

Lemma delete_last {A : Type} (l : list A) (x : A) : delete (length l) (l ++ [x]) = l.
Proof. induction l as [|a l IH]; simpl; [reflexivity|]. now rewrite IH. Qed.

(** X4: In a reachable registry, a segment that parses to the current counter
    value addresses nothing (Get answers NotFound); a Create with four
    non-falsy fields then returns a record with exactly that id, and Get on
    the same segment returns that very record. *)
Theorem created_record_is_found_by_its_id
        (st : State) (body : Body) (now1 now2 : timestamp) (idp : string) :
  reachable st ->
  ~ falsy (b_title body) -> ~ falsy (b_description body) ->
  ~ falsy (b_category body) -> ~ falsy (b_location body) ->
  parseInt idp = Some (nextId st) ->
  handle (GetProblem idp) st = (NotFound, st) /\
  exists p st',
    handle (PostProblem body now1 now2) st =
    (ProblemOk 201 (Some "Problem reported successfully") p, st') /\
    id p = nextId st /\
    handle (GetProblem idp) st' = (ProblemOk 200 None p, st').
Proof.
  intros Hr Ht Hd Hc Hl Hid.
  pose proof (counter_value_is_unused st idp Hr Hid) as Hnone.
  split.
  - simpl. unfold get_problem. now rewrite find_findIndex, Hnone.
  - do 2 eexists. split; [simpl; now apply post_problem_accepts|].
    split; [reflexivity|].
    simpl. unfold get_problem. cbn [problems]. rewrite find_findIndex.
    rewrite (findIndex_app_last _ _ _ Hnone).
    + rewrite list_lookup_middle; reflexivity.
    + apply id_matches_true. exact Hid.
Qed.

Lemma created_record_is_found_by_its_id_witness :
  handle (GetProblem "2") one_report = (NotFound, one_report) /\
  exists p st',
    handle (PostProblem pothole 6 6) one_report =
    (ProblemOk 201 (Some "Problem reported successfully") p, st') /\
    id p = 2 /\
    handle (GetProblem "2") st' = (ProblemOk 200 None p, st').
Proof.
  apply (created_record_is_found_by_its_id one_report pothole 6 6 "2");
    try (unfold falsy; simpl; intros [H|[H|[H|[H|H]]]]; discriminate H).
  - exact reachable_one_report.
  - reflexivity.
Defined.

(** X5: In a reachable registry, a Create with four non-falsy fields followed by
    a Delete on a segment that parses to the id just assigned leaves the
    collection exactly as it was before the Create, with the counter one
    higher: the id is spent. *)
Theorem create_then_delete_restores_collection
        (st : State) (body : Body) (now1 now2 : timestamp) (idp : string) :
  reachable st ->
  ~ falsy (b_title body) -> ~ falsy (b_description body) ->
  ~ falsy (b_category body) -> ~ falsy (b_location body) ->
  parseInt idp = Some (nextId st) ->
  (serve [PostProblem body now1 now2; DeleteProblem idp] st).2 =
  {| problems := problems st; nextId := nextId st + 1 |}.
Proof.
  intros Hr Ht Hd Hc Hl Hid.
  pose proof (counter_value_is_unused st idp Hr Hid) as Hnone.
  cbn [serve handle]. rewrite (post_problem_accepts body now1 now2 st Ht Hd Hc Hl).
  unfold delete_problem. cbn [problems nextId].
  rewrite (findIndex_app_last _ _ _ Hnone) by (apply id_matches_true; exact Hid).
  rewrite list_lookup_middle by reflexivity. cbn.
  now rewrite delete_last.
Qed.

Lemma create_then_delete_restores_collection_witness :
  (serve [PostProblem pothole 6 6; DeleteProblem "2"] one_report).2 =
  {| problems := problems one_report; nextId := 3 |}.
Proof.
  apply (create_then_delete_restores_collection one_report pothole 6 6 "2");
    try (unfold falsy; simpl; intros [H|[H|[H|[H|H]]]]; discriminate H).
  - exact reachable_one_report.
  - reflexivity.
Defined.

(** ** What every stored record satisfies *)

Lemma applied_not_falsy (v old : jsval) : ~ falsy old -> ~ falsy (applied v old).
Proof. intros H. unfold applied. now destruct (decide (falsy v)). Qed.

Lemma recognized_not_falsy (v : jsval) : recognized_status v -> ~ falsy v.
Proof.
  intros [-> | [-> | ->]]; unfold falsy; intros [H|[H|[H|[H|H]]]]; discriminate H.
Qed.

Lemma Forall_lookup_ok (l : list Problem) (i : nat) (p : Problem) (P : Problem -> Prop) :
  Forall P l -> l !! i = Some p -> P p.
Proof.
  intros H Hi. rewrite Forall_forall in H. apply H. eapply list_elem_of_lookup_2; eauto.
Qed.

Lemma records_ok_handle (req : Request) (st : State) :
  records_ok st -> records_ok (handle req st).2.
Proof.
  intros [Hall Hn]. unfold records_ok.
  destruct req as [q|idp|b t1 t2|idp b t|idp t|idp b t|idp|]; simpl.
  - now split.
  - unfold get_problem. destruct (List.find _ _); now split.
  - unfold post_problem.
    destruct (truthy (b_title b)) eqn:Et; [|now split].
    destruct (truthy (b_description b)) eqn:Ed; [|now split].
    destruct (truthy (b_category b)) eqn:Ec; [|now split].
    destruct (truthy (b_location b)) eqn:El; [|now split].
    simpl. split; [|lia]. apply Forall_app. split; [exact Hall|].
    constructor; [|constructor]. apply truthy_true in Et, Ed, Ec, El.
    repeat split; simpl; try assumption; try lia.
    apply recognized_not_falsy. now left.
  - unfold put_problem. destruct (findIndex _ _) as [i|]; [|now split].
    destruct (problems st !! i) as [old|] eqn:Hi; [|now split].
    simpl. split; [|exact Hn]. apply Forall_insert; [exact Hall|].
    destruct (Forall_lookup_ok _ i old record_ok Hall Hi) as ((H1 & H2 & H3 & H4 & H5) & Hu & Hid).
    rewrite !spread_if_applied.
    repeat split; simpl; try assumption; now apply applied_not_falsy.
  - unfold post_upvote. destruct (findIndex _ _) as [i|]; [|now split].
    destruct (problems st !! i) as [old|] eqn:Hi; [|now split].
    simpl. split; [|exact Hn]. apply Forall_insert; [exact Hall|].
    destruct (Forall_lookup_ok _ i old record_ok Hall Hi) as ((H1 & H2 & H3 & H4 & H5) & Hu & Hid).
    repeat split; simpl; try assumption; lia.
  - unfold patch_status. destruct (findIndex _ _) as [i|]; [|now split].
    destruct (includes valid_statuses (b_status b)) eqn:Ev; simpl; [|now split].
    destruct (problems st !! i) as [old|] eqn:Hi; [|now split].
    simpl. split; [|exact Hn]. apply Forall_insert; [exact Hall|].
    destruct (Forall_lookup_ok _ i old record_ok Hall Hi) as ((H1 & H2 & H3 & H4 & H5) & Hu & Hid).
    repeat split; simpl; try assumption.
    apply recognized_not_falsy. now apply includes_valid_statuses.
  - unfold delete_problem. destruct (findIndex _ _) as [i|]; [|now split].
    destruct (problems st !! i) as [old|] eqn:Hi; [|now split].
    simpl. split; [|exact Hn]. now apply Forall_delete.
  - split; [|exact Hn]. simpl. now rewrite js_sort_perm.
Qed.

Lemma records_ok_serve (reqs : list Request) (st : State) :
  records_ok st -> records_ok (serve reqs st).2.
Proof.
  revert st. induction reqs as [|req rest IH]; intros st H; simpl; [exact H|].
  pose proof (records_ok_handle req st H) as H1.
  destruct (handle req st) as [resp st1]. simpl in H1.
  specialize (IH st1 H1). now destruct (serve rest st1).
Qed.

(** X6: After any sequence of requests, no stored record has a falsy title,
    description, category, location or status: Create demands the first
    four, and Update and ChangeStatus only ever overwrite with non-falsy
    values, so a field can be changed but never emptied. *)
Theorem stored_fields_are_never_falsy (reqs : list Request) :
  Forall fields_present (problems (serve reqs init).2).
Proof.
  assert (H : records_ok (serve reqs init).2).
  { apply records_ok_serve. split; [constructor|simpl; lia]. }
  destruct H as [H _]. eapply Forall_impl; [exact H|]. now intros p [Hp _].
Qed.

Lemma records_in_range (reqs : list Request) (p : Problem) :
  In p (problems (serve reqs init).2) ->
  1 <= id p < nextId (serve reqs init).2 /\ 0 <= upvotes p.
Proof.
  intros Hp.
  assert (H : records_ok (serve reqs init).2).
  { apply records_ok_serve. split; [constructor|simpl; lia]. }
  destruct (ids_fresh_serve reqs init ids_fresh_init) as [[_ Hlt] _].
  destruct H as [H _]. rewrite Forall_forall in *. apply list_elem_of_In in Hp.
  specialize (H p Hp). specialize (Hlt p Hp). destruct H as (_ & Hu & Hid). lia.
Qed.

(** X7: After any sequence of requests, every stored id lies between 1 and the
    counter (exclusive), and every upvote count is at least 0. *)
Theorem stored_ids_and_upvotes_are_in_range (reqs : list Request) :
  let st := (serve reqs init).2 in
  Forall (fun p => 1 <= id p < nextId st /\ 0 <= upvotes p) (problems st).
Proof.
  simpl. apply Forall_forall. intros p Hp. apply records_in_range.
  now apply list_elem_of_In.
Qed.

(** X8: In a reachable registry, a segment that parses to a number below 1 or
    not below the counter (so also every negative number and 0) is answered
    with NotFound by Get, Update, Upvote, ChangeStatus and Delete, and the
    state is unchanged. *)
Theorem ids_out_of_range_are_not_found
        (st : State) (idp : string) (n : Z) (body : Body) (now : timestamp) :
  reachable st -> parseInt idp = Some n -> n < 1 \/ nextId st <= n ->
  Forall (fun req => handle req st = (NotFound, st)) (id_addressed idp body now).
Proof.
  intros Hr Hid Hn. apply id_absent_all_not_found, id_absent_findIndex.
  intros p Hp. rewrite Hid. intros E. inversion E; subst n.
  destruct Hr as [reqs <-].
  pose proof (records_in_range reqs p Hp). lia.
Qed.

Lemma ids_out_of_range_are_not_found_witness :
  Forall (fun req => handle req one_report = (NotFound, one_report))
         (id_addressed "0" empty_body 9) /\
  Forall (fun req => handle req one_report = (NotFound, one_report))
         (id_addressed "-1" empty_body 9).
Proof.
  split.
  - apply (ids_out_of_range_are_not_found one_report "0" 0);
      [exact reachable_one_report | reflexivity | left; lia].
  - apply (ids_out_of_range_are_not_found one_report "-1" (-1));
      [exact reachable_one_report | reflexivity | left; lia].
Defined.

(** ** Statistics *)

Section SortedLists.
Context {A : Type} (R : A -> A -> Prop).

Lemma StronglySorted_cross (l1 l2 : list A) (x y : A) :
  StronglySorted R (l1 ++ l2) -> In x l1 -> In y l2 -> R x y.
Proof.
  induction l1 as [|a l1 IH]; intros Hs Hx Hy; [destruct Hx|].
  simpl in Hs. inversion Hs as [|? ? Hs' Hall]; subst.
  destruct Hx as [<-|Hx].
  - rewrite Forall_forall in Hall. apply Hall, list_elem_of_In, in_or_app. now right.
  - now apply IH.
Qed.

Lemma StronglySorted_split (l1 l2 : list A) :
  StronglySorted R (l1 ++ l2) -> StronglySorted R l1 /\ StronglySorted R l2.
Proof.
  induction l1 as [|a l1 IH]; intros Hs; [split; [constructor|exact Hs]|].
  simpl in Hs. inversion Hs as [|? ? Hs' Hall]; subst.
  destruct (IH Hs') as [H1 H2]. split; [|exact H2].
  constructor; [exact H1|]. apply Forall_app in Hall. tauto.
Qed.
End SortedLists.

Lemma js_sort_sorted (l : list Problem) :
  StronglySorted upvotes_desc l -> js_sort (fun a b => upvotes b - upvotes a) l = l.
Proof.
  induction 1 as [|x r Hr IH Hx]; [reflexivity|].
  simpl. rewrite IH. destruct r as [|y r']; [reflexivity|].
  simpl. apply Forall_cons in Hx. destruct Hx as [Hy _]. unfold upvotes_desc in Hy.
  destruct (0 <? upvotes y - upvotes x) eqn:E; [|reflexivity].
  apply Z.ltb_lt in E. lia.
Qed.

Lemma count_where_perm (f : Problem -> bool) (l l' : list Problem) :
  Permutation l l' -> count_where f l = count_where f l'.
Proof.
  unfold count_where. induction 1 as [|x l l' _ IH|x y l|l l' l'' _ IH1 _ IH2]; simpl.
  - reflexivity.
  - destruct (f x); simpl; now rewrite IH.
  - destruct (f x), (f y); reflexivity.
  - now rewrite IH1.
Qed.

(** X9: GET /stats sorts the stored array itself: after a Stats request the
    collection holds the same records, rearranged in non-increasing order of
    upvotes, so a following List without filters returns them in that order
    rather than in the order of creation. *)
Theorem stats_reorders_the_collection (st : State) :
  let st' := (handle GetStats st).2 in
  exists l,
    handle (GetProblems no_filter) st' = (ListOk (length (problems st)) l, st') /\
    Permutation l (problems st) /\
    StronglySorted upvotes_desc l /\
    nextId st' = nextId st.
Proof.
  simpl. eexists. split.
  - unfold get_problems. simpl. rewrite js_sort_length. reflexivity.
  - split; [apply js_sort_perm|]. split; [apply js_sort_upvotes_desc|reflexivity].
Qed.

(** X10: A second Stats request right after a first one returns the same answer
    and leaves the collection as the first one left it. *)
Theorem stats_twice_is_stats_once (st : State) :
  let st' := (handle GetStats st).2 in
  handle GetStats st' = ((handle GetStats st).1, st').
Proof.
  simpl. unfold get_stats. cbn [problems nextId].
  rewrite (js_sort_sorted _ (js_sort_upvotes_desc (problems st))).
  rewrite js_sort_length.
  rewrite !(count_where_perm _ _ _ (js_sort_perm _ (problems st))).
  reflexivity.
Qed.

(** X11: topUpvoted has five entries, or all the records when there are fewer
    (none for the empty collection); together with the records left out it
    makes up the collection, and no record left out has more upvotes than
    one that is listed. *)
Theorem top_upvoted_size_and_maximality (st : State) :
  exists s rest,
    (handle GetStats st).1 = StatsOk s /\
    length (topUpvoted s) = Nat.min 5 (length (problems st)) /\
    Permutation (topUpvoted s ++ rest) (problems st) /\
    forall p q, In p (topUpvoted s) -> In q rest -> upvotes q <= upvotes p.
Proof.
  set (sorted := js_sort (fun a b => upvotes b - upvotes a) (problems st)).
  eexists. exists (drop 5 sorted). split; [reflexivity|].
  cbn [topUpvoted]. fold sorted. split; [|split].
  - rewrite length_take. unfold sorted. now rewrite js_sort_length.
  - rewrite take_drop. apply js_sort_perm.
  - intros p q Hp Hq.
    apply (StronglySorted_cross upvotes_desc (take 5 sorted) (drop 5 sorted) p q); auto.
    rewrite take_drop. apply js_sort_upvotes_desc.
Qed.

Lemma status_counts_le (l : list Problem) :
  (count_where (fun p => strict_eq (status p) (JStr "open")) l
   + count_where (fun p => strict_eq (status p) (JStr "in-progress")) l
   + count_where (fun p => strict_eq (status p) (JStr "resolved")) l
   <= length l)%nat /\
  (Forall (fun p => recognized_status (status p)) l ->
   (count_where (fun p => strict_eq (status p) (JStr "open")) l
    + count_where (fun p => strict_eq (status p) (JStr "in-progress")) l
    + count_where (fun p => strict_eq (status p) (JStr "resolved")) l
    = length l)%nat).
Proof.
  unfold count_where. induction l as [|a l [IHle IHeq]]; [simpl; split; auto|].
  cbn [List.filter].
  destruct (strict_eq (status a) (JStr "open")) eqn:E1;
  destruct (strict_eq (status a) (JStr "in-progress")) eqn:E2;
  destruct (strict_eq (status a) (JStr "resolved")) eqn:E3;
  try (apply strict_eq_true in E1); try (apply strict_eq_true in E2);
  try (apply strict_eq_true in E3);
  try (exfalso; congruence);
  (split; [cbn [length]; lia|]);
  intros Hall; apply Forall_cons in Hall; destruct Hall as [Ha Hl];
  specialize (IHeq Hl); try (cbn [length]; lia).
  exfalso. destruct Ha as [Ha|[Ha|Ha]]; apply strict_eq_true in Ha; congruence.
Qed.

(** X12: The three status counts of Stats never add up to more than total, and
    they add up to exactly total whenever every stored status is one of the
    three recognized values. *)
Theorem status_counts_cover_recognized_statuses (st : State) :
  exists s,
    (handle GetStats st).1 = StatsOk s /\
    (open s + inProgress s + resolved s <= total s)%nat /\
    (statuses_recognized st -> (open s + inProgress s + resolved s = total s)%nat).
Proof.
  eexists. split; [reflexivity|]. cbn [open inProgress resolved total].
  apply status_counts_le.
Qed.

Lemma status_counts_cover_recognized_statuses_witness :
  exists s,
    (handle GetStats one_report).1 = StatsOk s /\
    (open s + inProgress s + resolved s = total s)%nat.
Proof.
  destruct (status_counts_cover_recognized_statuses one_report) as (s & Hs & _ & Heq).
  exists s. split; [exact Hs|]. apply Heq.
  constructor; [|constructor]. left. reflexivity.
Defined.

(** ** Accounting of records *)

Lemma accounting_handle (req : Request) (st : State) :
  (length (problems (handle req st).2) + length (deleted_id req (handle req st).1)
   = length (problems st) + length (created_id req (handle req st).1))%nat /\
  nextId (handle req st).2 =
  nextId st + Z.of_nat (length (created_id req (handle req st).1)).
Proof.
  destruct req as [q|idp|b t1 t2|idp b t|idp t|idp b t|idp|]; simpl.
  - split; lia.
  - unfold get_problem. destruct (List.find _ _); simpl; split; lia.
  - unfold post_problem. destruct (_ || _); simpl; [split; lia|].
    rewrite length_app. simpl. split; lia.
  - unfold put_problem. destruct (findIndex _ _) as [i|]; [|simpl; split; lia].
    destruct (problems st !! i); simpl; [rewrite length_insert|]; split; lia.
  - unfold post_upvote. destruct (findIndex _ _) as [i|]; [|simpl; split; lia].
    destruct (problems st !! i); simpl; [rewrite length_insert|]; split; lia.
  - unfold patch_status. destruct (findIndex _ _) as [i|]; [|simpl; split; lia].
    destruct (negb _); [simpl; split; lia|].
    destruct (problems st !! i); simpl; [rewrite length_insert|]; split; lia.
  - unfold delete_problem. destruct (findIndex _ _) as [i|]; [|simpl; split; lia].
    destruct (problems st !! i) as [p|] eqn:Hi; simpl; [|split; lia].
    rewrite length_delete by eauto.
    pose proof (lookup_lt_Some _ _ _ Hi). split; lia.
  - rewrite js_sort_length. split; lia.
Qed.

Lemma accounting_serve (reqs : list Request) (st : State) :
  (length (problems (serve reqs st).2) + length (deleted_ids reqs (serve reqs st).1)
   = length (problems st) + length (created_ids reqs (serve reqs st).1))%nat /\
  nextId (serve reqs st).2 =
  nextId st + Z.of_nat (length (created_ids reqs (serve reqs st).1)).
Proof.
  revert st. induction reqs as [|req rest IH]; intros st; simpl; [split; lia|].
  pose proof (accounting_handle req st) as [H1 H2].
  destruct (handle req st) as [resp st1]. simpl in H1, H2.
  destruct (IH st1) as [H3 H4].
  destruct (serve rest st1) as [resps st2]. simpl in *.
  rewrite !length_app. split; lia.
Qed.

(** X13: After any sequence of requests, the number of stored records, which is
    what the health check reports as problemsCount and Stats as total, is
    the number of successful Creates minus the number of successful Deletes;
    and the counter is 1 plus the number of successful Creates: no other
    request adds or drops a record or moves the counter. *)
Theorem record_count_is_creates_minus_deletes (reqs : list Request) (now : timestamp) :
  let resps := (serve reqs init).1 in
  let st := (serve reqs init).2 in
  (problemsCount (get_health now st).1 + length (deleted_ids reqs resps)
   = length (created_ids reqs resps))%nat /\
  (get_health now st).2 = st /\
  (exists s, (handle GetStats st).1 = StatsOk s /\ total s = problemsCount (get_health now st).1) /\
  nextId st = 1 + Z.of_nat (length (created_ids reqs resps)).
Proof.
  simpl. destruct (accounting_serve reqs init) as [H1 H2]. simpl in H1, H2.
  split; [exact H1|]. split; [reflexivity|]. split; [|exact H2].
  eexists. split; reflexivity.
Qed.

(** ** The history of a record *)

Lemma nextId_handle_mono (req : Request) (st : State) :
  nextId st <= nextId (handle req st).2.
Proof. destruct (accounting_handle req st) as [_ H]. lia. Qed.

Lemma record_step (req : Request) (st : State) (p' : Problem) :
  In p' (problems (handle req st).2) ->
  nextId st <= id p' \/
  exists p, In p (problems st) /\ id p = id p' /\ createdAt p = createdAt p' /\
            upvotes p <= upvotes p' <= upvotes p + 1.
Proof.
  assert (Hsame : In p' (problems st) ->
                  nextId st <= id p' \/
                  exists p, In p (problems st) /\ id p = id p' /\
                            createdAt p = createdAt p' /\
                            upvotes p <= upvotes p' <= upvotes p + 1).
  { intros H. right. exists p'. repeat split; auto; lia. }
  destruct req as [q|idp|b t1 t2|idp b t|idp t|idp b t|idp|]; simpl.
  - exact Hsame.
  - unfold get_problem. now destruct (List.find _ _).
  - unfold post_problem. destruct (_ || _); simpl; [exact Hsame|].
    intros H. apply in_app_or in H. destruct H as [H|[<-|[]]]; [now apply Hsame|].
    left. simpl. lia.
  - unfold put_problem. destruct (findIndex _ _) as [i|]; [|exact Hsame].
    destruct (problems st !! i) as [old|] eqn:Hi; [|exact Hsame]. simpl.
    intros H. apply In_insert in H. destruct H as [->|H]; [|now apply Hsame].
    right. exists old. simpl. repeat split; try lia.
    apply list_elem_of_In. eapply list_elem_of_lookup_2; eauto.
  - unfold post_upvote. destruct (findIndex _ _) as [i|]; [|exact Hsame].
    destruct (problems st !! i) as [old|] eqn:Hi; [|exact Hsame]. simpl.
    intros H. apply In_insert in H. destruct H as [->|H]; [|now apply Hsame].
    right. exists old. simpl. repeat split; try lia.
    apply list_elem_of_In. eapply list_elem_of_lookup_2; eauto.
  - unfold patch_status. destruct (findIndex _ _) as [i|]; [|exact Hsame].
    destruct (negb _); [exact Hsame|].
    destruct (problems st !! i) as [old|] eqn:Hi; [|exact Hsame]. simpl.
    intros H. apply In_insert in H. destruct H as [->|H]; [|now apply Hsame].
    right. exists old. simpl. repeat split; try lia.
    apply list_elem_of_In. eapply list_elem_of_lookup_2; eauto.
  - unfold delete_problem. destruct (findIndex _ _) as [i|]; [|exact Hsame].
    destruct (problems st !! i) as [old|] eqn:Hi; [|exact Hsame]. simpl.
    intros H. apply In_delete in H. now apply Hsame.
  - intros H. apply Hsame. apply list_elem_of_In. apply list_elem_of_In in H.
    now rewrite js_sort_perm in H.
Qed.

Lemma record_trace (reqs : list Request) (st : State) (p' : Problem) :
  In p' (problems (serve reqs st).2) ->
  nextId st <= id p' \/
  exists p, In p (problems st) /\ id p = id p' /\ createdAt p = createdAt p' /\
            upvotes p <= upvotes p'.
Proof.
  revert st. induction reqs as [|req rest IH]; intros st; simpl.
  - intros H. right. exists p'. repeat split; auto; lia.
  - pose proof (nextId_handle_mono req st) as Hmono.
    pose proof (fun q => record_step req st q) as Hstep.
    destruct (handle req st) as [resp st1]. simpl in Hmono, Hstep.
    specialize (IH st1). destruct (serve rest st1) as [resps st2]. simpl in *.
    intros H. destruct (IH H) as [Hnew|(p1 & Hp1 & Hid1 & Hc1 & Hu1)]; [left; lia|].
    destruct (Hstep p1 Hp1) as [Hnew|(p & Hp & Hid & Hc & Hu)]; [left; lia|].
    right. exists p. repeat split; auto; try congruence; lia.
Qed.

(** X14: Whatever requests are served from a reachable registry, a record that is
    still stored afterwards under the id of a record stored before has the
    same createdAt and at least as many upvotes: no request rewrites
    createdAt or lowers upvotes, and an id never passes to another report. *)
Theorem createdAt_is_kept_and_upvotes_never_decrease
        (reqs : list Request) (st : State) (p p' : Problem) :
  reachable st -> In p (problems st) -> In p' (problems (serve reqs st).2) ->
  id p' = id p ->
  createdAt p' = createdAt p /\ upvotes p <= upvotes p'.
Proof.
  intros Hr Hp Hp' Hid.
  destruct (record_trace reqs st p' Hp') as [Hnew|(q & Hq & Hidq & Hc & Hu)].
  - pose proof (ids_below_counter st p Hr Hp). lia.
  - assert (q = p).
    { apply (unique_by_id (problems st)); auto; [|congruence].
      apply reachable_ids_fresh in Hr. apply Hr. }
    subst q. split; [congruence|exact Hu].
Qed.

Lemma createdAt_is_kept_and_upvotes_never_decrease_witness :
  Forall (fun p' => id p' = 1 -> createdAt p' = 5 /\ 0 <= upvotes p')
         (problems (serve [PostUpvote "1" 7; PutProblem "1" pothole 8; GetStats]
                          one_report).2).
Proof.
  apply Forall_forall. intros p' Hp' Hid.
  apply (createdAt_is_kept_and_upvotes_never_decrease
           [PostUpvote "1" 7; PutProblem "1" pothole 8; GetStats] one_report reported p').
  - exact reachable_one_report.
  - left. reflexivity.
  - apply list_elem_of_In. exact Hp'.
  - exact Hid.
Defined.

(** ** Repeated upvotes *)

Lemma last_cons_default {A : Type} (t d : A) (ts : list A) :
  List.last (t :: ts) d = List.last ts t.
Proof.
  revert t d. induction ts as [|a l IH]; intros t d; [reflexivity|].
  change (List.last (t :: a :: l) d) with (List.last (a :: l) d).
  now rewrite !IH.
Qed.

Lemma post_upvote_at (idp : string) (t : timestamp) (st : State) (i : nat) (p : Problem) :
  findIndex (id_matches idp) (problems st) = Some i ->
  problems st !! i = Some p ->
  post_upvote idp t st =
  (ProblemOk 200 (Some "Upvote recorded")
     (mkProblem (id p) (title p) (description p) (category p) (location p)
                (upvotes p + 1) (status p) (createdAt p) t),
   {| problems :=
        <[i := mkProblem (id p) (title p) (description p) (category p) (location p)
                         (upvotes p + 1) (status p) (createdAt p) t]> (problems st);
      nextId := nextId st |}).
Proof. intros Hi Hl. unfold post_upvote. now rewrite Hi, Hl. Qed.

Lemma upvotes_accumulate_at (idp : string) (ts : list timestamp) :
  forall (st : State) (i : nat) (p : Problem),
    findIndex (id_matches idp) (problems st) = Some i ->
    problems st !! i = Some p ->
    parseInt idp = Some (id p) ->
    findIndex (id_matches idp) (problems (serve (map (PostUpvote idp) ts) st).2) = Some i /\
    problems (serve (map (PostUpvote idp) ts) st).2 !! i =
    Some (mkProblem (id p) (title p) (description p) (category p) (location p)
                    (upvotes p + Z.of_nat (length ts)) (status p) (createdAt p)
                    (List.last ts (updatedAt p))) /\
    length (problems (serve (map (PostUpvote idp) ts) st).2) = length (problems st) /\
    nextId (serve (map (PostUpvote idp) ts) st).2 = nextId st.
Proof.
  induction ts as [|t ts IH]; intros st i p Hi Hl Hid.
  - simpl. split; [exact Hi|]. split; [|split; reflexivity].
    rewrite Hl. destruct p. simpl. do 2 f_equal. lia.
  - cbn [map serve handle]. rewrite (post_upvote_at idp t st i p Hi Hl).
    set (p1 := mkProblem (id p) (title p) (description p) (category p) (location p)
                         (upvotes p + 1) (status p) (createdAt p) t).
    set (st1 := {| problems := <[i := p1]> (problems st); nextId := nextId st |}).
    assert (Hi1 : findIndex (id_matches idp) (problems st1) = Some i).
    { apply findIndex_insert_same; [exact Hi|]. apply id_matches_true. exact Hid. }
    assert (Hl1 : problems st1 !! i = Some p1).
    { apply list_lookup_insert_eq. eapply lookup_lt_Some; eauto. }
    destruct (IH st1 i p1 Hi1 Hl1 Hid) as (H1 & H2 & H3 & H4).
    destruct (serve (map (PostUpvote idp) ts) st1) as [resps st2]. cbn [snd] in *.
    split; [exact H1|]. split; [|split; [|exact H4]].
    + rewrite H2. unfold p1.
      cbn [id title description category location upvotes status createdAt updatedAt].
      rewrite last_cons_default. f_equal. f_equal. cbn [length]. lia.
    + rewrite H3. apply length_insert.
Qed.

(** X15: From a reachable registry, any number of Upvote requests on a segment
    that parses to the id of a stored record add up: a following Get shows
    the record with upvotes greater by the number of requests, updatedAt
    equal to the clock reading of the last of them (unchanged when there was
    none), and every other field as before. *)
Theorem upvotes_add_up
        (st : State) (idp : string) (ts : list timestamp) (p : Problem) :
  reachable st -> In p (problems st) -> parseInt idp = Some (id p) ->
  let st' := (serve (map (PostUpvote idp) ts) st).2 in
  handle (GetProblem idp) st' =
  (ProblemOk 200 None
     {| id := id p; title := title p; description := description p;
        category := category p; location := location p;
        upvotes := upvotes p + Z.of_nat (length ts); status := status p;
        createdAt := createdAt p; updatedAt := List.last ts (updatedAt p) |}, st').
Proof.
  intros Hr Hp Hid.
  destruct (addressed_record st idp p Hr Hp Hid) as (i & Hi & Hl).
  destruct (upvotes_accumulate_at idp ts st i p Hi Hl Hid) as (H1 & H2 & _).
  simpl. unfold get_problem. now rewrite find_findIndex, H1, H2.
Qed.

Lemma upvotes_add_up_witness :
  (handle (GetProblem "1") (serve (map (PostUpvote "1") [6; 7; 9]) one_report).2).1 =
  ProblemOk 200 None
    (mkProblem 1 (JStr "Pothole") (JStr "Large pothole") (JStr "infrastructure")
               (JStr "Main St") 3 (JStr "open") 5 9).
Proof.
  rewrite (upvotes_add_up one_report "1" [6; 7; 9] reported).
  - reflexivity.
  - exact reachable_one_report.
  - left. reflexivity.
  - reflexivity.
Defined.

(** ** Timestamps under a clock that does not run backwards *)

Lemma timely_later (T T' : timestamp) (st : State) :
  T <= T' -> timely T st -> timely T' st.
Proof.
  intros Hle H. unfold timely in *. eapply Forall_impl; [exact H|].
  simpl. intros p [H1 H2]. lia.
Qed.

Lemma timely_touch (T now : timestamp) (st : State) (i : nat) (old new : Problem) :
  T <= now -> timely T st -> problems st !! i = Some old ->
  createdAt new = createdAt old -> updatedAt new = now ->
  timely now {| problems := <[i := new]> (problems st); nextId := nextId st |}.
Proof.
  intros Hle H Hi Hc Hu. unfold timely in *. simpl.
  apply Forall_insert.
  - eapply Forall_impl; [exact H|]. simpl. intros p [H1 H2]. lia.
  - destruct (Forall_lookup_ok _ i old _ H Hi) as [H1 H2]. lia.
Qed.

Lemma timely_handle (T : timestamp) (req : Request) (st : State) :
  timely T st -> Forall (Z.le T) (readings req) -> StronglySorted Z.le (readings req) ->
  timely (List.last (readings req) T) (handle req st).2.
Proof.
  intros H Hge Hs.
  destruct req as [q|idp|b t1 t2|idp b t|idp t|idp b t|idp|]; cbn [readings List.last] in *.
  - exact H.
  - simpl. unfold get_problem. now destruct (List.find _ _).
  - apply Forall_cons in Hge. destruct Hge as [Hge1 Hge2].
    apply Forall_cons in Hge2. destruct Hge2 as [Hge2 _].
    inversion Hs as [|? ? _ H12]; subst. apply Forall_cons in H12. destruct H12 as [H12 _].
    simpl. unfold post_problem. destruct (_ || _); simpl; [now apply (timely_later T)|].
    unfold timely. simpl. apply Forall_app. split.
    + eapply Forall_impl; [exact H|]. simpl. intros p [H1 H2]. lia.
    + constructor; [simpl; lia|constructor].
  - apply Forall_cons in Hge. destruct Hge as [Hge _].
    simpl. unfold put_problem.
    destruct (findIndex _ _) as [i|]; [|now apply (timely_later T)].
    destruct (problems st !! i) as [old|] eqn:Hi; [|now apply (timely_later T)].
    simpl. now apply (timely_touch T t st i old).
  - apply Forall_cons in Hge. destruct Hge as [Hge _].
    simpl. unfold post_upvote.
    destruct (findIndex _ _) as [i|]; [|now apply (timely_later T)].
    destruct (problems st !! i) as [old|] eqn:Hi; [|now apply (timely_later T)].
    simpl. now apply (timely_touch T t st i old).
  - apply Forall_cons in Hge. destruct Hge as [Hge _].
    simpl. unfold patch_status.
    destruct (findIndex _ _) as [i|]; [|now apply (timely_later T)].
    destruct (negb _); [now apply (timely_later T)|].
    destruct (problems st !! i) as [old|] eqn:Hi; [|now apply (timely_later T)].
    simpl. now apply (timely_touch T t st i old).
  - simpl. unfold delete_problem. destruct (findIndex _ _) as [i|]; [|exact H].
    destruct (problems st !! i); [|exact H]. unfold timely. simpl. now apply Forall_delete.
  - unfold timely in *. simpl. now rewrite js_sort_perm.
Qed.

Lemma last_in_or_default {A : Type} (l : list A) (d : A) :
  List.last l d = d /\ l = [] \/ In (List.last l d) l.
Proof.
  induction l as [|a l IH]; [left; split; reflexivity|]. right.
  destruct l as [|b l']; [now left|].
  change (List.last (a :: b :: l') d) with (List.last (b :: l') d).
  destruct IH as [[_ E]|Hin]; [discriminate|]. now right.
Qed.

Lemma timely_serve (reqs : list Request) :
  forall (T : timestamp) (st : State),
    timely T st ->
    Forall (Z.le T) (flat_map readings reqs) ->
    StronglySorted Z.le (flat_map readings reqs) ->
    exists T', timely T' (serve reqs st).2.
Proof.
  induction reqs as [|req rest IH]; intros T st H Hge Hs; cbn [flat_map serve] in *.
  - exists T. exact H.
  - apply Forall_app in Hge. destruct Hge as [Hge1 Hge2].
    destruct (StronglySorted_split _ _ _ Hs) as [Hs1 Hs2].
    pose proof (timely_handle T req st H Hge1 Hs1) as H1.
    destruct (handle req st) as [resp st1]. cbn [snd] in H1.
    destruct (IH (List.last (readings req) T) st1 H1) as [T' HT']; [|exact Hs2|].
    + destruct (last_in_or_default (readings req) T) as [[-> _]|Hin]; [exact Hge2|].
      apply Forall_forall. intros y Hy. apply list_elem_of_In in Hy.
      apply (StronglySorted_cross Z.le _ _ _ y Hs Hin Hy).
    + exists T'. now destruct (serve rest st1).
Qed.

(** X16: If the clock readings taken by a sequence of requests, in the order in
    which they are taken, never decrease, then after the sequence every
    stored record has createdAt not later than updatedAt. *)
Theorem updatedAt_not_before_createdAt (reqs : list Request) :
  StronglySorted Z.le (flat_map readings reqs) ->
  Forall (fun p => createdAt p <= updatedAt p) (problems (serve reqs init).2).
Proof.
  intros Hs.
  assert (H : exists T', timely T' (serve reqs init).2).
  { destruct (flat_map readings reqs) as [|t0 l] eqn:E.
    - apply (timely_serve reqs 0 init); [apply Forall_nil_2|rewrite E; constructor|now rewrite E].
    - apply (timely_serve reqs t0 init); [apply Forall_nil_2| |now rewrite E]. rewrite E.
      constructor; [lia|]. inversion Hs; subst. assumption. }
  destruct H as [T' H]. eapply Forall_impl; [exact H|]. simpl. intros p [H1 _]. exact H1.
Qed.

Lemma updatedAt_not_before_createdAt_witness :
  Forall (fun p => createdAt p <= updatedAt p)
         (problems (serve [PostProblem pothole 3 4; PostUpvote "1" 4;
                           PatchStatus "1" (only_status (JStr "resolved")) 6] init).2).
Proof.
  apply updatedAt_not_before_createdAt. simpl.
  repeat (constructor; [|repeat (constructor; try lia)]). constructor.
Defined.

(** ** Addressing a record by the numeral of its id *)

Example numeral_42 : numeral 42 = "42".
Proof. reflexivity. Qed.

Lemma parse_digits_positive (d : Decimal.uint) (acc : positive) :
  parse_digits 10 (NilEmpty.string_of_uint d) (Some (Z.pos acc)) =
  Some (Z.pos (Pos.of_uint_acc d acc)).
Proof.
  revert acc. induction d as [|d IH|d IH|d IH|d IH|d IH|d IH|d IH|d IH|d IH|d IH];
    intros acc; [reflexivity|..];
    cbn [NilEmpty.string_of_uint parse_digits Pos.of_uint_acc];
    match goal with
    | |- context [radix_digit 10 ?c] =>
        let v := eval vm_compute in (radix_digit 10 c) in
        change (radix_digit 10 c) with v
    end; cbv iota beta;
    rewrite <- IH; do 2 f_equal; lia.
Qed.

Lemma parse_digits_numeral (d : Decimal.uint) :
  d <> Decimal.Nil ->
  parse_digits 10 (NilEmpty.string_of_uint d) None = Some (Z.of_N (Pos.of_uint d)) /\
  parse_digits 10 (NilEmpty.string_of_uint d) (Some 0) = Some (Z.of_N (Pos.of_uint d)).
Proof.
  induction d as [|d IH|d IH|d IH|d IH|d IH|d IH|d IH|d IH|d IH|d IH];
    intros Hn; [congruence|..];
    cbn [NilEmpty.string_of_uint parse_digits Pos.of_uint];
    match goal with
    | |- context [radix_digit 10 ?c] =>
        let v := eval vm_compute in (radix_digit 10 c) in
        change (radix_digit 10 c) with v
    end; cbv iota beta;
    try (split; cbn [Z.mul Z.add Z.of_N]; apply parse_digits_positive).
  change (0 * 10 + 0) with 0.
  destruct d; try (apply IH; discriminate). split; reflexivity.
Qed.

Lemma parseInt_digits_only (d : Decimal.uint) :
  parseInt (NilEmpty.string_of_uint d) =
  parse_digits 10 (NilEmpty.string_of_uint d) None.
Proof.
  unfold parseInt.
  destruct d as [|d|d|d|d|d|d|d|d|d|d]; try reflexivity;
    cbn [NilEmpty.string_of_uint trim_start];
    match goal with
    | |- context [is_white_space ?c] =>
        let v := eval vm_compute in (is_white_space c) in
        change (is_white_space c) with v
    end; cbv iota; cbn [strip_sign];
    destruct d; cbn [NilEmpty.string_of_uint strip_hex_prefix];
    match goal with
    | |- match ?x with Some _ => _ | None => _ end = ?y =>
        change y with x; destruct x as [n|]; [|reflexivity]; f_equal; lia
    end.
Qed.

Lemma parseInt_numeral (n : Z) : 0 <= n -> parseInt (numeral n) = Some n.
Proof.
  intros Hn. unfold numeral. rewrite parseInt_digits_only.
  assert (Hnil : N.to_uint (Z.to_N n) <> Decimal.Nil).
  { intros E. pose proof (DecimalN.Unsigned.to_of (N.to_uint (Z.to_N n))) as H.
    rewrite DecimalN.Unsigned.of_to in H.
    rewrite E in H at 2. simpl in H. rewrite E in H. discriminate H. }
  destruct (parse_digits_numeral _ Hnil) as [-> _].
  change (Pos.of_uint (N.to_uint (Z.to_N n))) with (N.of_uint (N.to_uint (Z.to_N n))).
  rewrite DecimalN.Unsigned.of_to. f_equal. lia.
Qed.

(** X17: In a reachable registry every stored record can be addressed: the
    decimal numeral of its id, which is how a response prints the id, is
    parsed back to that id, and Get on it returns the record. *)
Theorem every_record_is_addressed_by_its_numeral (st : State) (p : Problem) :
  reachable st -> In p (problems st) ->
  parseInt (numeral (id p)) = Some (id p) /\
  handle (GetProblem (numeral (id p))) st = (ProblemOk 200 None p, st).
Proof.
  intros Hr Hp.
  assert (Hid : parseInt (numeral (id p)) = Some (id p)).
  { apply parseInt_numeral. destruct Hr as [reqs <-].
    pose proof (records_in_range reqs p Hp). lia. }
  split; [exact Hid|].
  destruct (addressed_record st _ p Hr Hp Hid) as (i & Hi & Hl).
  simpl. unfold get_problem. now rewrite find_findIndex, Hi, Hl.
Qed.

Lemma every_record_is_addressed_by_its_numeral_witness :
  handle (GetProblem "1") one_report = (ProblemOk 200 None reported, one_report).
Proof.
  apply (every_record_is_addressed_by_its_numeral one_report reported).
  - exact reachable_one_report.
  - left. reflexivity.
Defined.

(** ** Requests that keep the records *)

(** X18: A request other than a Create or a Delete never adds or removes a
    record: the stored ids afterwards are the stored ids before, up to the
    reordering done by Stats, and the counter is unchanged. *)
Theorem only_create_and_delete_change_the_ids (req : Request) (st : State) :
  keeps_records req ->
  Permutation (map id (problems (handle req st).2)) (map id (problems st)) /\
  nextId (handle req st).2 = nextId st.
Proof.
  destruct req as [q|idp|b t1 t2|idp b t|idp t|idp b t|idp|]; simpl; intros Hk;
    try contradiction.
  - split; reflexivity.
  - unfold get_problem. destruct (List.find _ _); split; reflexivity.
  - unfold put_problem. destruct (findIndex _ _) as [i|]; [|split; reflexivity].
    destruct (problems st !! i) as [old|] eqn:Hi; [|split; reflexivity].
    simpl. now rewrite (map_id_insert _ i old).
  - unfold post_upvote. destruct (findIndex _ _) as [i|]; [|split; reflexivity].
    destruct (problems st !! i) as [old|] eqn:Hi; [|split; reflexivity].
    simpl. now rewrite (map_id_insert _ i old).
  - unfold patch_status. destruct (findIndex _ _) as [i|]; [|split; reflexivity].
    destruct (negb _); [split; reflexivity|].
    destruct (problems st !! i) as [old|] eqn:Hi; [|split; reflexivity].
    simpl. now rewrite (map_id_insert _ i old).
  - split; [|reflexivity]. apply Permutation_map, js_sort_perm.
Qed.

Lemma only_create_and_delete_change_the_ids_witness :
  Permutation
    (map id (problems (handle (PutProblem "1" (only_status (JStr "resolved")) 9)
                              one_report).2))
    (map id (problems one_report)) /\
  nextId (handle (PutProblem "1" (only_status (JStr "resolved")) 9) one_report).2 =
  nextId one_report.
Proof.
  apply only_create_and_delete_change_the_ids. exact I.
Defined.
